(** * network_viz: sampling and degree classification of a page-page graph

    A shallow embedding of [graph_neural_network/utils.py].  The function
    [network_viz] builds an undirected graph from an edge list, picks a
    moderately connected start node at random, grows a bounded sample by
    breadth-first expansion, takes the induced subgraph and classifies its
    nodes against the 70th percentile of their degrees.

    The library calls the function relies on are embedded next to it:
    - [Nx]   the parts of [networkx.Graph] that are used (adjacency kept as
             insertion-ordered dictionaries, i.e. association lists);
    - [Rand] Python's [random.choice] and [random.shuffle] over an explicit
             generator state;
    - [Np]   [numpy.percentile] (linear interpolation) and [numpy.mean]. *)

From stdpp Require Import base option list sorting gmap sets fin_sets.
From Stdlib Require Import ZArith QArith Lia.

Local Open Scope Z_scope.

(** ** Outcomes of a call *)

Inductive exn : Type :=
  | IndexError        (* random.choice on an empty sequence *)
  | NetworkXError     (* G.neighbors(n) for n not in G *)
  | ValueError.       (* max() of an empty sequence *)

Inductive outcome (A : Type) : Type :=
  | Ok (a : A)
  | Raise (e : exn)
  | OutOfFuel.
Arguments Ok {A} a.
Arguments Raise {A} e.
Arguments OutOfFuel {A}.

#[global] Instance outcome_ret : MRet outcome := λ A a, Ok a.
#[global] Instance outcome_bind : MBind outcome := λ A B k m,
  match m with
  | Ok a => k a
  | Raise e => Raise e
  | OutOfFuel => OutOfFuel
  end.

Definition node : Type := Z.

(** ** networkx.Graph *)

Module Nx.

(** [_adj]: node -> (neighbour -> edge data), both dictionaries in insertion
    order.  Edge data is never read by [network_viz], so a neighbour
    dictionary is the list of its keys. *)
Abbreviation Graph := (list (node * list node)).

Definition empty : Graph := [].

(** [G.nodes()] *)
Definition nodes (G : Graph) : list node := G.*1.

(** [G._adj.get(u)] *)
Fixpoint adj (G : Graph) (u : node) : option (list node) :=
  match G with
  | [] => None
  | (n, nbrs) :: G' => if decide (n = u) then Some nbrs else adj G' u
  end.

Definition adj_list (G : Graph) (u : node) : list node :=
  default [] (adj G u).

(** [G.has_edge(u, v)]: [v in self._adj[u]], False when [u] is missing. *)
Definition has_edge (G : Graph) (u v : node) : Prop := v ∈ adj_list G u.

(** [G.neighbors(n)]: iterates [self._adj[n]]; a missing node raises. *)
Definition neighbors (G : Graph) (n : node) : outcome (list node) :=
  match adj G n with
  | Some nbrs => Ok nbrs
  | None => Raise NetworkXError
  end.

(** [if u not in self._node: self._adj[u] = {}] *)
Definition add_node (G : Graph) (u : node) : Graph :=
  if decide (u ∈ nodes G) then G else G ++ [(u, [])].

(** [d[v] = datadict] on an insertion-ordered dictionary: an existing key
    keeps its place, a new key goes last. *)
Definition dict_set (d : list node) (v : node) : list node :=
  if decide (v ∈ d) then d else d ++ [v].

(** [self._adj[u][v] = datadict] *)
Definition set_adj (G : Graph) (u v : node) : Graph :=
  (λ p : node * list node,
     if decide (p.1 = u) then (p.1, dict_set p.2 v) else p) <$> G.

(** One round of the loop of [add_edges_from]. *)
Definition add_edge (G : Graph) (u v : node) : Graph :=
  set_adj (set_adj (add_node (add_node G u) v) u v) v u.

Definition add_edges_from (G : Graph) (ebunch : list (node * node)) : Graph :=
  foldl (λ g e, add_edge g e.1 e.2) G ebunch.

Definition add_nodes_from (G : Graph) (ns : list node) : Graph :=
  foldl add_node G ns.

(** [G.degree(n)]: [len(nbrs) + (n in nbrs)], a self-loop counts twice. *)
Definition degree_of (n : node) (nbrs : list node) : nat :=
  (length nbrs + (if decide (n ∈ nbrs) then 1 else 0))%nat.

Definition degree (G : Graph) (n : node) : nat :=
  degree_of n (adj_list G n).

(** [dict(G.degree())]: the items, in node order. *)
Definition degrees (G : Graph) : list (node * nat) :=
  (λ p : node * list node, (p.1, degree_of p.1 p.2)) <$> G.

(** [G.subgraph(nbunch)]: the view that shows the nodes of [G] lying in
    [nbunch] and, for each, the neighbours lying in [nbunch].  The view is
    listed here in the order of [G]; networkx lists it in the iteration
    order of the selection instead when the selection is less than half of
    [G].  That order is an order of a Python set, and no statement below
    depends on the order of the nodes of a subgraph. *)
Definition subgraph (G : Graph) (nbunch : gset node) : Graph :=
  (λ p : node * list node, (p.1, filter (λ v, v ∈ nbunch) p.2))
    <$> filter (λ p : node * list node, p.1 ∈ nbunch) G.

(** The pairs [(u, v) for u, nbrs in G._adj.items() for v in nbrs]. *)
Definition adj_pairs (G : Graph) : list (node * node) :=
  p ← G; (λ v, (p.1, v)) <$> p.2.

(** [G.copy()]: a fresh graph, nodes added first, then every adjacency
    pair added as an edge. *)
Definition copy (G : Graph) : Graph :=
  add_edges_from (add_nodes_from empty (nodes G)) (adj_pairs G).

(** Well-formed adjacency: keys are unique, neighbour dictionaries have
    unique keys, every neighbour is a node and adjacency is symmetric. *)
Record wf (G : Graph) : Prop := {
  wf_nodes : NoDup (nodes G);
  wf_nbrs u nbrs : adj G u = Some nbrs → NoDup nbrs;
  wf_closed u v : has_edge G u v → v ∈ nodes G;
  wf_sym u v : has_edge G u v → has_edge G v u
}.

End Nx.


(** ** Python's random module *)

Module Rand.

(** The state of the process-wide generator, as the sequence of raw draws
    it is still going to produce.  A draw consumes the head. *)
Definition state : Type := nat → nat.

(** [self._randbelow(n)]: an integer in [range(n)], for [n > 0]. *)
Definition randbelow (n : nat) (g : state) : nat * state :=
  ((g 0 mod n)%nat, λ i, g (S i)).

(** [random.choice(seq)]: an empty sequence raises [IndexError]. *)
Definition choice {A} (seq : list A) (g : state) : outcome (A * state) :=
  match seq with
  | [] => Raise IndexError
  | _ =>
    let '(i, g') := randbelow (length seq) g in
    match seq !! i with
    | Some a => Ok (a, g')
    | None => Raise IndexError
    end
  end.

(** [x[i], x[j] = x[j], x[i]] *)
Definition swap {A} (x : list A) (i j : nat) : list A :=
  match x !! i, x !! j with
  | Some xi, Some xj => <[j:=xi]> (<[i:=xj]> x)
  | _, _ => x
  end.

(** [random.shuffle(x)]:
    [for i in reversed(range(1, len(x))): j = randbelow(i + 1); swap]. *)
Fixpoint shuffle_from {A} (i : nat) (x : list A) (g : state) : list A * state :=
  match i with
  | O => (x, g)
  | S i' =>
    let '(j, g') := randbelow (S i) g in
    shuffle_from i' (swap x i j) g'
  end.

Definition shuffle {A} (x : list A) (g : state) : list A * state :=
  shuffle_from (length x - 1) x g.

End Rand.

(** ** numpy *)

Module Np.

(** A float64 result.  The finite values that occur here are averages and
    interpolations of node degrees; they are kept as exact rationals, so
    the rounding of float64 is left out.  The comparisons of a degree with
    such a value are exact in float64 as well. *)
Inductive float : Type :=
  | Real (q : Q)
  | NaN.

(** [np.percentile(a, q)] with the default linear interpolation: with the
    data sorted, the virtual index is [(n - 1) * q / 100]; the result
    interpolates between the entries below and above it.  The virtual
    index is kept multiplied by 100. *)
Definition percentile (a : list Z) (q : Z) : float :=
  match a with
  | [] => NaN
  | _ =>
    let arr := merge_sort Z.le a in
    let n := Z.of_nat (length a) in
    let virtual_index := (n - 1) * q in
    let previous_index := virtual_index / 100 in
    let next_index := Z.min (previous_index + 1) (n - 1) in
    let gamma := virtual_index mod 100 in
    let previous := default 0 (arr !! Z.to_nat previous_index) in
    let next := default 0 (arr !! Z.to_nat next_index) in
    Real (Qmake (100 * previous + (next - previous) * gamma) 100)
  end.

(** [np.mean(a)]: the mean of an empty list is [nan] (with a warning, not
    an exception). *)
Definition mean (a : list Z) : float :=
  match a with
  | [] => NaN
  | _ => Real (Qmake (foldr Z.add 0 a) (Pos.of_nat (length a)))
  end.

(** [x >= t] and [x < t] for an integer [x] and a float [t]; every
    comparison with [nan] is false. *)
Definition ge (x : Z) (t : float) : bool :=
  match t with
  | Real q => Qle_bool q (inject_Z x)
  | NaN => false
  end.

Definition lt (x : Z) (t : float) : bool :=
  match t with
  | Real q => if Qlt_le_dec (inject_Z x) q then true else false
  | NaN => false
  end.

End Np.

(** ** network_viz *)

Inductive color : Type := red | lightblue.

Section network_viz.

(** [nx.spring_layout]: a force-directed placement over floats, given as a
    function of the graph and of its [seed], [k] and [iterations]
    arguments.  With an integer [seed] networkx draws from a generator of
    its own, created from that seed. *)
Context {Layout : Type}.
Variable spring_layout : Nx.Graph → Z → Z → Z → Layout.

Record viz : Type := Viz {
  G_full : Nx.Graph;
  start_node : node;
  visited : gset node;
  G_sub : Nx.Graph;
  sub_degrees : list (node * nat);
  degree_threshold : Np.float;
  popular_pages : list node;
  regular_pages : list node;
  pos : Layout;
  node_colors : list color;
  node_sizes : list Z;
  popular_mean : Np.float;
  regular_mean : Np.float;
  max_degree : Z
}.

(** [[node for node, deg in degrees.items() if 20 <= deg <= 100]] *)
Definition moderate_nodes (degrees : list (node * nat)) : list node :=
  (filter (λ p : node * nat, (20 ≤ snd p ≤ 100)%nat) degrees).*1.

(** The body of [for neighbor in neighbors]. *)
Definition visit (num_nodes : Z) (st : gset node * list node)
    (neighbor : node) : gset node * list node :=
  if decide ((neighbor ∉ fst st) ∧ Z.of_nat (size (fst st)) < num_nodes)
  then ({[neighbor]} ∪ fst st, snd st ++ [neighbor])
  else st.

(** [while queue and len(visited) < num_nodes].  Every round dequeues a
    node that was counted in [visited] when it was enqueued, so fewer than
    [num_nodes] rounds can start; [fuel] bounds their number. *)
Fixpoint expand (fuel : nat) (G : Nx.Graph) (num_nodes : Z)
    (visited : gset node) (queue : list node) (g : Rand.state)
    : outcome (gset node * Rand.state) :=
  match queue with
  | [] => Ok (visited, g)
  | current :: queue =>
    if decide (Z.of_nat (size visited) < num_nodes) then
      match fuel with
      | O => OutOfFuel
      | S fuel =>
        neighbors ← Nx.neighbors G current;
        let '(neighbors, g) := Rand.shuffle neighbors g in
        let '(visited, queue) :=
          foldl (visit num_nodes) (visited, queue) neighbors in
        expand fuel G num_nodes visited queue g
      end
    else Ok (visited, g)
  end.

(** [sub_degrees[node]]; the keys looked up are the nodes of [G_sub], which
    are the keys of [sub_degrees]. *)
Fixpoint getitem (d : list (node * nat)) (n : node) : Z :=
  match d with
  | [] => 0
  | (k, v) :: d => if decide (k = n) then Z.of_nat v else getitem d n
  end.

(** [max(values)]: an empty sequence raises [ValueError]. *)
Definition py_max (values : list Z) : outcome Z :=
  match values with
  | [] => Raise ValueError
  | x :: values => Ok (foldl Z.max x values)
  end.

(** [def network_viz(data, num_nodes=80)].  [edge_list] is
    [data.edge_index.t().numpy()], the rows of the edge index; the drawing
    calls and the printed summary are left out, the values they show are
    kept in the record. *)
Definition network_viz (edge_list : list (node * node)) (num_nodes : Z)
    (g : Rand.state) : outcome (viz * Rand.state) :=
  let G_full := Nx.add_edges_from Nx.empty edge_list in
  let degrees := Nx.degrees G_full in
  let moderate_nodes := moderate_nodes degrees in
  '(start_node, g) ← Rand.choice moderate_nodes g;
  '(visited, g) ←
    expand (Z.to_nat num_nodes) G_full num_nodes {[start_node]} [start_node] g;
  let G_sub := Nx.copy (Nx.subgraph G_full visited) in
  let sub_degrees := Nx.degrees G_sub in
  let degree_threshold :=
    Np.percentile (Z.of_nat <$> sub_degrees.*2) 70 in
  let popular_pages :=
    filter (λ n, Np.ge (getitem sub_degrees n) degree_threshold = true)
           (Nx.nodes G_sub) in
  let regular_pages :=
    filter (λ n, Np.lt (getitem sub_degrees n) degree_threshold = true)
           (Nx.nodes G_sub) in
  let pos := spring_layout G_sub 42 2 50 in
  let styles :=
    (λ n, let degree := getitem sub_degrees n in
          if decide (n ∈ popular_pages) then (red, 100 + degree * 8)
          else (lightblue, 50 + degree * 5)) <$> Nx.nodes G_sub in
  let popular_degrees := getitem sub_degrees <$> popular_pages in
  let regular_degrees := getitem sub_degrees <$> regular_pages in
  let popular_mean := Np.mean popular_degrees in
  let regular_mean := Np.mean regular_degrees in
  max_degree ← py_max (Z.of_nat <$> sub_degrees.*2);
  Ok (Viz G_full start_node visited G_sub sub_degrees degree_threshold
          popular_pages regular_pages pos styles.*1 styles.*2
          popular_mean regular_mean max_degree, g).

End network_viz.

Arguments viz : clear implicits.

(** ** Vocabulary of the statements *)


(** An edge of [G] between two members of [S]. *)
Definition edge_within (G : Nx.Graph) (S : gset node) (u v : node) : Prop :=
  Nx.has_edge G u v ∧ u ∈ S ∧ v ∈ S.

(** A set [comp] is the connected component of [start]: its members are
    the nodes joined to [start] by a path of edges of [G]. *)
Definition component (G : Nx.Graph) (start : node) (comp : gset node) : Prop :=
  ∀ v, v ∈ comp ↔ rtc (Nx.has_edge G) start v.

(** What holds of the visited set between two steps of the expansion;
    [pending] lists the members whose neighbours may still be unvisited. *)
Record expanding (G : Nx.Graph) (num_nodes : Z) (start : node)
    (S : gset node) (pending : list node) : Prop := {
  exp_start : start ∈ S;
  exp_pending u : u ∈ pending → u ∈ S;
  exp_nodes u : u ∈ S → u ∈ Nx.nodes G;
  exp_conn u : u ∈ S → rtc (edge_within G S) start u;
  exp_bound : Z.of_nat (size S) ≤ Z.max num_nodes 1;
  exp_closed u v :
    Z.of_nat (size S) < num_nodes →
    u ∈ S → u ∉ pending → Nx.has_edge G u v → v ∈ S
}.
Arguments exp_pending {_ _ _ _ _} _ _ _.
Arguments exp_nodes {_ _ _ _ _} _ _ _.

(** Degree of [n] counted over the edges of [G] that stay inside [S]: the
    neighbours of [n] that lie in [S], a self-loop counted twice. *)
Definition induced_degree (G : Nx.Graph) (S : gset node) (n : node) : nat :=
  Nx.degree_of n (filter (λ v, v ∈ S) (Nx.adj_list G n)).


(** The moderate-degree band of seed selection. *)
Definition in_band (G : Nx.Graph) (v : node) : Prop :=
  v ∈ Nx.nodes G ∧ (20 ≤ Nx.degree G v ≤ 100)%nat.

(** How the fields of a returned record hang together. *)
Record sampled {Layout : Type} (spring_layout : Nx.Graph → Z → Z → Z → Layout)
    (edge_list : list (node * node)) (num_nodes : Z) (r : viz Layout)
    : Prop := {
  s_full : G_full r = Nx.add_edges_from Nx.empty edge_list;
  s_start : start_node r ∈ moderate_nodes (Nx.degrees (G_full r));
  s_expanding :
    expanding (G_full r) num_nodes (start_node r) (visited r) [];
  s_sub : G_sub r = Nx.copy (Nx.subgraph (G_full r) (visited r));
  s_degrees : sub_degrees r = Nx.degrees (G_sub r);
  s_threshold :
    degree_threshold r = Np.percentile (Z.of_nat <$> (sub_degrees r).*2) 70;
  s_popular :
    popular_pages r =
      filter (λ n, Np.ge (getitem (sub_degrees r) n) (degree_threshold r) = true)
             (Nx.nodes (G_sub r));
  s_regular :
    regular_pages r =
      filter (λ n, Np.lt (getitem (sub_degrees r) n) (degree_threshold r) = true)
             (Nx.nodes (G_sub r));
  s_pos : pos r = spring_layout (G_sub r) 42 2 50;
  s_popular_mean :
    popular_mean r = Np.mean (getitem (sub_degrees r) <$> popular_pages r);
  s_regular_mean :
    regular_mean r = Np.mean (getitem (sub_degrees r) <$> regular_pages r)
}.

(** What a call does, over all its outcomes: it returns a record that
    satisfies [P], or seed selection raises [IndexError], which happens only
    when no node of the full graph lies in the band. *)
Definition returns_with {Layout : Type}
    (spring_layout : Nx.Graph → Z → Z → Z → Layout)
    (edge_list : list (node * node)) (num_nodes : Z) (g : Rand.state)
    (P : viz Layout → Prop) : Prop :=
  match network_viz spring_layout edge_list num_nodes g with
  | Ok (r, _) => P r
  | Raise e =>
    e = IndexError ∧
    ∀ v, ¬ in_band (Nx.add_edges_from Nx.empty edge_list) v
  | OutOfFuel => False
  end.


(** ** The drawing and the summary *)

(** [G.number_of_nodes()], and [G.number_of_edges()], which is
    [int(G.size())]: half the sum of the degrees. *)
Definition number_of_nodes (G : Nx.Graph) : nat := length (Nx.nodes G).

Definition degree_sum (G : Nx.Graph) : nat := sum_list (Nx.degrees G).*2.

Definition number_of_edges (G : Nx.Graph) : nat := (degree_sum G / 2)%nat.

#[global] Instance has_edge_dec (G : Nx.Graph) (u v : node)
    : Decision (Nx.has_edge G u v) :=
  decide (v ∈ Nx.adj_list G u).

(** [G.edges()] as a set: every edge once, whichever way round it is
    stored. *)
Definition undirected (e : node * node) : node * node :=
  (Z.min e.1 e.2, Z.max e.1 e.2).

Definition edge_set (G : Nx.Graph) : gset (node * node) :=
  list_to_set (undirected <$> Nx.adj_pairs G).

(** What [add_edges_from] keeps: the sum of the degrees is twice the number
    of edges. *)
Definition handshake (G : Nx.Graph) : Prop :=
  Nx.wf G ∧ degree_sum G = (2 * size (edge_set G))%nat.

(** The edges of [G] that have both ends in [S]. *)
Definition edges_within (G : Nx.Graph) (S : gset node) : gset (node * node) :=
  filter (λ p : node * node, p.1 ∈ S ∧ p.2 ∈ S) (edge_set G).

(** The members of [S] are the nodes nearest to [start]: when a member is
    more than [k] edges away, every node at most [k] edges away is a
    member. *)
Definition nearest_first (G : Nx.Graph) (start : node) (S : gset node) : Prop :=
  ∀ k v w, v ∈ S →
    ¬ bsteps (Nx.has_edge G) k start v → bsteps (Nx.has_edge G) k start w →
    w ∈ S.

(** The queue of a breadth-first expansion, while the bound is not
    reached: its head is at most [a] edges from [start], it lists nodes at
    most [a] edges away before nodes exactly [a + 1] edges away, every node
    at most [a] edges away is visited and no visited node is more than
    [a + 1] edges away. *)
Definition level_queue (G : Nx.Graph) (start : node) (X : gset node)
    (pending : list node) : Prop :=
  match pending with
  | [] => True
  | h :: rest =>
    ∃ (a : nat) (l1 l2 : list node),
      rest = l1 ++ l2 ∧
      bsteps (Nx.has_edge G) a start h ∧
      (∀ x, x ∈ l1 → bsteps (Nx.has_edge G) a start x) ∧
      (∀ x, x ∈ l2 → bsteps (Nx.has_edge G) (S a) start x ∧
                     ¬ bsteps (Nx.has_edge G) a start x) ∧
      (∀ w, bsteps (Nx.has_edge G) a start w → w ∈ X) ∧
      (∀ v, v ∈ X → bsteps (Nx.has_edge G) (S a) start v)
  end.

(** The colour and the size that the loop over [G_sub.nodes()] gives to a
    node: [red] and [100 + degree * 8] when it is in [popular_pages],
    [lightblue] and [50 + degree * 5] otherwise. *)
Definition style_of (sub_degrees : list (node * nat))
    (popular_pages : list node) (n : node) : color * Z :=
  if decide (n ∈ popular_pages)
  then (red, 100 + getitem sub_degrees n * 8)
  else (lightblue, 50 + getitem sub_degrees n * 5).

(** How the drawn lists and the printed maximum of a returned record come
    from its other fields. *)
Record drawn {Layout : Type} (r : viz Layout) : Prop := {
  d_colors :
    node_colors r =
      (style_of (sub_degrees r) (popular_pages r) <$> Nx.nodes (G_sub r)).*1;
  d_sizes :
    node_sizes r =
      (style_of (sub_degrees r) (popular_pages r) <$> Nx.nodes (G_sub r)).*2;
  d_max : py_max (Z.of_nat <$> (sub_degrees r).*2) = Ok (max_degree r)
}.

(** ** Sample inputs *)

(** A hub, node 0, with [n] leaves. *)
Definition star (n : nat) : list (node * node) :=
  (λ i, (0, Z.of_nat i)) <$> seq 1 n.

(** The edge list of the small-graph scenario. *)
Definition small_graph : list (node * node) := [(1, 2); (2, 3); (3, 1); (1, 4)].

(** Two generator states, unequal as terms, that produce the same draws. *)
Definition g0 : Rand.state := λ i, (i * 7 + 3)%nat.

(** A layout that records nothing. *)
Definition no_layout (G : Nx.Graph) (seed k iterations : Z) : unit := tt.

(** What the examples look at in an outcome. *)
Definition observe {Layout : Type} (o : outcome (viz Layout * Rand.state))
    : outcome (node * list node * list nat * Np.float
               * list node * list node * Np.float) :=
  '(r, _) ← o;
  Ok (start_node r, Nx.nodes (G_sub r),
      Nx.degree (G_sub r) <$> Nx.nodes (G_sub r), degree_threshold r,
      popular_pages r, regular_pages r, regular_mean r).

(** ** Facts about the graph operations *)

Section nx_facts.
Import Nx.
Implicit Types (G : Graph) (u v w a b : node) (d : list node).

Lemma adj_is_Some G u : is_Some (adj G u) ↔ u ∈ nodes G.
Proof.
  unfold nodes. induction G as [|[n l] G IH]; simpl.
  - rewrite elem_of_nil. split; [intros [? ?]; done | done].
  - rewrite elem_of_cons. destruct (decide (n = u)) as [->|Hne].
    + split; eauto.
    + rewrite IH. naive_solver.
Qed.

Lemma adj_None G u : adj G u = None ↔ u ∉ nodes G.
Proof. rewrite <-adj_is_Some, eq_None_not_Some. done. Qed.

Lemma has_edge_node G u v : has_edge G u v → u ∈ nodes G.
Proof.
  unfold has_edge, adj_list. intros H. apply adj_is_Some.
  destruct (adj G u); [eauto | by apply elem_of_nil in H].
Qed.

Lemma adj_app G G' u :
  adj (G ++ G') u = match adj G u with Some l => Some l | None => adj G' u end.
Proof.
  induction G as [|[n l] G IH]; simpl; [done|].
  by destruct (decide (n = u)).
Qed.

Lemma nodes_add_node G u w : w ∈ nodes (add_node G u) ↔ w ∈ nodes G ∨ w = u.
Proof.
  unfold add_node. destruct (decide (u ∈ nodes G)) as [Hin|Hnin].
  - naive_solver.
  - unfold nodes. rewrite fmap_app, elem_of_app. simpl.
    rewrite list_elem_of_singleton. done.
Qed.

Lemma adj_add_node G u w :
  adj (add_node G u) w =
    match adj G w with
    | Some l => Some l
    | None => if decide (u = w) then Some [] else None
    end.
Proof.
  unfold add_node. destruct (decide (u ∈ nodes G)) as [Hin|Hnin].
  - destruct (adj G w) eqn:Hw; [done|].
    destruct (decide (u = w)) as [->|]; [|done].
    apply adj_None in Hw. done.
  - rewrite adj_app. simpl. done.
Qed.

Lemma nodes_set_adj G u v : nodes (set_adj G u v) = nodes G.
Proof.
  unfold nodes, set_adj. rewrite <-list_fmap_compose.
  apply list_fmap_ext. intros i [n l] _. simpl. by destruct (decide (n = u)).
Qed.

Lemma adj_set_adj G u v w :
  adj (set_adj G u v) w =
    if decide (w = u) then (λ d, dict_set d v) <$> adj G u else adj G w.
Proof.
  unfold set_adj. induction G as [|[n l] G IH]; csimpl.
  - by destruct (decide (w = u)).
  - rewrite IH. clear IH.
    destruct (decide (n = u)) as [->|Hne]; simpl;
      destruct (decide (w = u)) as [->|Hne']; simpl;
      repeat case_decide; simplify_eq; done.
Qed.

Lemma elem_of_dict_set d v w : w ∈ dict_set d v ↔ w ∈ d ∨ w = v.
Proof.
  unfold dict_set. destruct (decide (v ∈ d)).
  - naive_solver.
  - rewrite elem_of_app, list_elem_of_singleton. done.
Qed.

Lemma NoDup_dict_set d v : NoDup d → NoDup (dict_set d v).
Proof.
  unfold dict_set. intros Hd. destruct (decide (v ∈ d)); [done|].
  apply NoDup_app. split_and!; [done| |apply NoDup_singleton].
  intros x Hx ->%list_elem_of_singleton. done.
Qed.

Lemma NoDup_add_node G u : NoDup (nodes G) → NoDup (nodes (add_node G u)).
Proof.
  unfold add_node. intros HG. destruct (decide (u ∈ nodes G)); [done|].
  unfold nodes. rewrite fmap_app. simpl.
  apply NoDup_app. split_and!; [done| |apply NoDup_singleton].
  intros x Hx ->%list_elem_of_singleton. done.
Qed.

(** The adjacency of a node after one edge has been added. *)
Lemma adj_add_edge G a b w :
  adj (add_edge G a b) w =
    if decide (w = a) then
      Some (let d := dict_set (default [] (adj G a)) b in
            if decide (a = b) then dict_set d a else d)
    else if decide (w = b) then
      Some (dict_set (default [] (adj G b)) a)
    else adj G w.
Proof.
  unfold add_edge. rewrite !adj_set_adj, !adj_add_node.
  destruct (adj G a) as [da|] eqn:Ha, (adj G b) as [db|] eqn:Hb;
    repeat (case_decide; simplify_eq/=); try done;
    destruct (adj G w); done.
Qed.

Lemma has_edge_add_edge G a b u v :
  has_edge (add_edge G a b) u v ↔
    has_edge G u v ∨ (u = a ∧ v = b) ∨ (u = b ∧ v = a).
Proof.
  unfold has_edge, adj_list. rewrite adj_add_edge.
  destruct (decide (u = a)) as [->|Hua]; simpl.
  - destruct (decide (a = b)) as [->|Hab].
    + rewrite !elem_of_dict_set. naive_solver.
    + rewrite elem_of_dict_set. naive_solver.
  - destruct (decide (u = b)) as [->|Hub]; simpl.
    + rewrite elem_of_dict_set. naive_solver.
    + naive_solver.
Qed.

Lemma nodes_add_edge G a b w :
  w ∈ nodes (add_edge G a b) ↔ w ∈ nodes G ∨ w = a ∨ w = b.
Proof.
  unfold add_edge. rewrite !nodes_set_adj, !nodes_add_node. naive_solver.
Qed.

Lemma wf_empty : wf empty.
Proof.
  split; unfold empty, has_edge, adj_list; simpl.
  - apply NoDup_nil_2.
  - done.
  - intros u v H. by apply elem_of_nil in H.
  - intros u v H. by apply elem_of_nil in H.
Qed.

Lemma wf_add_edge G a b : wf G → wf (add_edge G a b).
Proof.
  intros [Hn Hd Hc Hs]. split.
  - unfold add_edge. rewrite !nodes_set_adj. by do 2 apply NoDup_add_node.
  - intros u nbrs. rewrite adj_add_edge.
    assert (∀ x, NoDup (default [] (adj G x))) as Hdef.
    { intros x. destruct (adj G x) eqn:Hx; simpl; [eauto | apply NoDup_nil_2]. }
    destruct (decide (u = a)) as [->|Hua].
    + intros [= <-]. simpl.
      destruct (decide (a = b)); repeat apply NoDup_dict_set; apply Hdef.
    + destruct (decide (u = b)) as [->|Hub]; [|by eauto].
      intros [= <-]. apply NoDup_dict_set, Hdef.
  - intros u v. rewrite has_edge_add_edge, nodes_add_edge. naive_solver.
  - intros u v. rewrite !has_edge_add_edge. naive_solver.
Qed.

Lemma wf_add_edges_from G es : wf G → wf (add_edges_from G es).
Proof.
  unfold add_edges_from. revert G.
  induction es as [|e es IH]; intros G HG; simpl; [done|].
  by apply IH, wf_add_edge.
Qed.

Lemma has_edge_add_edges_from G es u v :
  has_edge (add_edges_from G es) u v ↔
    has_edge G u v ∨ (u, v) ∈ es ∨ (v, u) ∈ es.
Proof.
  unfold add_edges_from. revert G.
  induction es as [|[a b] es IH]; intros G; simpl.
  - rewrite !elem_of_nil. naive_solver.
  - rewrite IH, has_edge_add_edge, !elem_of_cons. naive_solver.
Qed.

Lemma nodes_add_edges_from G es w :
  w ∈ nodes (add_edges_from G es) ↔
    w ∈ nodes G ∨ ∃ e, e ∈ es ∧ (w = e.1 ∨ w = e.2).
Proof.
  unfold add_edges_from. revert G.
  induction es as [|[a b] es IH]; intros G; simpl.
  - setoid_rewrite elem_of_nil. naive_solver.
  - rewrite IH, nodes_add_edge. setoid_rewrite elem_of_cons.
    split.
    + intros [[?|[->| ->]]|(e & ? & ?)]; eauto 6;
        right; exists (a, b); eauto.
    + intros [?|(e & [->|?] & He)]; simpl in *; eauto 7.
Qed.

(** *** Entries, degrees *)

Lemma adj_elem_of G u d : adj G u = Some d → (u, d) ∈ G.
Proof.
  induction G as [|[n l] G IH]; simpl; [done|].
  destruct (decide (n = u)) as [->|Hne].
  - intros [= ->]. by left.
  - intros H. right. by apply IH.
Qed.

Lemma elem_of_adj G u d : NoDup (nodes G) → (u, d) ∈ G → adj G u = Some d.
Proof.
  unfold nodes. induction G as [|[n l] G IH]; csimpl.
  - intros _ H. by apply elem_of_nil in H.
  - intros [Hn HG]%NoDup_cons [[= -> ->]|Hin]%elem_of_cons.
    + by rewrite decide_True.
    + rewrite decide_False; [by apply IH|].
      intros ->. apply Hn. apply list_elem_of_fmap. by exists (u, d).
Qed.

Lemma NoDup_adj_list G u : wf G → NoDup (adj_list G u).
Proof.
  intros HG. unfold adj_list. destruct (adj G u) as [d|] eqn:Hd; simpl.
  - by eapply wf_nbrs.
  - apply NoDup_nil_2.
Qed.

Lemma getitem_degrees G n :
  getitem (degrees G) n = Z.of_nat (degree G n).
Proof.
  unfold degrees, degree, adj_list.
  induction G as [|[k l] G IH]; csimpl; [done|].
  destruct (decide (k = n)) as [->|Hne]; [done|]. apply IH.
Qed.

Lemma degrees_values G :
  NoDup (nodes G) → (degrees G).*2 = degree G <$> nodes G.
Proof.
  intros HG. unfold degrees, nodes. rewrite <-!list_fmap_compose.
  apply list_fmap_ext. intros i [n l] Hi. simpl.
  unfold degree, adj_list. erewrite elem_of_adj; [done|done|].
  by eapply list_elem_of_lookup_2.
Qed.

Lemma degrees_keys G : (degrees G).*1 = nodes G.
Proof.
  unfold degrees, nodes. rewrite <-list_fmap_compose.
  by apply list_fmap_ext.
Qed.

(** *** The subgraph view *)

Lemma nodes_subgraph G (S : gset node) :
  nodes (subgraph G S) = filter (λ v, v ∈ S) (nodes G).
Proof.
  unfold nodes, subgraph. induction G as [|[n l] G IH]; [done|].
  destruct (decide (n ∈ S)) as [Hn|Hn].
  - rewrite filter_cons_True by done. rewrite !fmap_cons.
    rewrite filter_cons_True by done. f_equal. exact IH.
  - rewrite filter_cons_False by done. rewrite fmap_cons.
    rewrite filter_cons_False by done. exact IH.
Qed.

Lemma adj_subgraph G (S : gset node) u :
  adj (subgraph G S) u =
    if decide (u ∈ S) then filter (λ v, v ∈ S) <$> adj G u else None.
Proof.
  unfold subgraph. induction G as [|[n l] G IH].
  - by destruct (decide (u ∈ S)).
  - destruct (decide (n ∈ S)) as [Hn|Hn].
    + rewrite filter_cons_True by done. rewrite fmap_cons. simpl.
      destruct (decide (n = u)) as [->|Hne]; [by rewrite decide_True|done].
    + rewrite filter_cons_False by done. rewrite IH.
      destruct (decide (u ∈ S)) as [Hu|Hu]; [|done]. simpl.
      destruct (decide (n = u)) as [->|Hne]; done.
Qed.

Lemma adj_list_subgraph G (S : gset node) u :
  u ∈ S → adj_list (subgraph G S) u = filter (λ v, v ∈ S) (adj_list G u).
Proof.
  intros Hu. unfold adj_list. rewrite adj_subgraph, decide_True by done.
  by destruct (adj G u).
Qed.

Lemma has_edge_subgraph G (S : gset node) u v :
  has_edge (subgraph G S) u v ↔ has_edge G u v ∧ u ∈ S ∧ v ∈ S.
Proof.
  unfold has_edge. destruct (decide (u ∈ S)) as [Hu|Hu].
  - rewrite adj_list_subgraph, list_elem_of_filter by done. naive_solver.
  - unfold adj_list at 1. rewrite adj_subgraph, decide_False by done.
    simpl. rewrite elem_of_nil. naive_solver.
Qed.

Lemma wf_subgraph G (S : gset node) : wf G → wf (subgraph G S).
Proof.
  intros HG. split.
  - rewrite nodes_subgraph. apply NoDup_filter, HG.
  - intros u d. rewrite adj_subgraph.
    destruct (decide (u ∈ S)); [|done].
    destruct (adj G u) as [d0|] eqn:Hd; [|done]. intros [= <-].
    apply NoDup_filter. by eapply wf_nbrs.
  - intros u v (Huv & Hu & Hv)%has_edge_subgraph.
    rewrite nodes_subgraph. apply list_elem_of_filter. split; [done|].
    by eapply wf_closed.
  - intros u v (Huv & Hu & Hv)%has_edge_subgraph.
    apply has_edge_subgraph. split_and!; [|done|done]. by apply wf_sym.
Qed.

(** *** Copying *)

Lemma add_node_elem_of G u : u ∈ nodes G → add_node G u = G.
Proof. intros H. unfold add_node. by rewrite decide_True. Qed.

Lemma add_edge_nodes G a b :
  a ∈ nodes G → b ∈ nodes G → nodes (add_edge G a b) = nodes G.
Proof.
  intros Ha Hb. unfold add_edge. rewrite !nodes_set_adj.
  rewrite (add_node_elem_of G a) by done. by rewrite add_node_elem_of.
Qed.

Lemma add_edges_from_nodes G es :
  (∀ e, e ∈ es → e.1 ∈ nodes G ∧ e.2 ∈ nodes G) →
  nodes (add_edges_from G es) = nodes G.
Proof.
  unfold add_edges_from. revert G.
  induction es as [|e es IH]; intros G Hes; simpl; [done|].
  destruct (Hes e) as [H1 H2]; [by left|].
  rewrite IH.
  - by apply add_edge_nodes.
  - intros e' He'. rewrite add_edge_nodes by done. apply Hes. by right.
Qed.

Lemma add_nodes_from_nodes G ns :
  NoDup (nodes G ++ ns) → nodes (add_nodes_from G ns) = nodes G ++ ns.
Proof.
  unfold add_nodes_from. revert G.
  induction ns as [|n ns IH]; intros G Hnd; simpl.
  - by rewrite app_nil_r.
  - assert (n ∉ nodes G) as Hn.
    { apply NoDup_app in Hnd as (_ & Hd & _). intros Hin.
      apply (Hd n Hin). by left. }
    unfold add_node at 2. rewrite decide_False by done.
    rewrite IH; unfold nodes; rewrite fmap_app; simpl;
      rewrite <-app_assoc; done.
Qed.

Lemma adj_add_nodes_from G ns u :
  adj (add_nodes_from G ns) u =
    match adj G u with
    | Some d => Some d
    | None => if decide (u ∈ ns) then Some [] else None
    end.
Proof.
  unfold add_nodes_from. revert G.
  induction ns as [|n ns IH]; intros G; simpl.
  - destruct (adj G u); [done|].
    destruct (decide (u ∈ [])) as [H|]; [by apply elem_of_nil in H|done].
  - rewrite IH, adj_add_node. destruct (adj G u); [done|].
    destruct (decide (n = u)) as [->|Hne].
    + rewrite decide_True; [done|by left].
    + destruct (decide (u ∈ ns)).
      * rewrite decide_True; [done|by right].
      * rewrite decide_False; [done|]. by intros [->|?]%elem_of_cons.
Qed.

Lemma elem_of_adj_pairs G u v :
  NoDup (nodes G) → (u, v) ∈ adj_pairs G ↔ has_edge G u v.
Proof.
  intros HG. unfold adj_pairs, has_edge, adj_list.
  rewrite list_elem_of_bind. split.
  - intros ([n d] & Hin & Hnd). simpl in Hin.
    apply list_elem_of_fmap in Hin as (v' & [= -> ->] & Hv').
    by rewrite (elem_of_adj G n d).
  - destruct (adj G u) as [d|] eqn:Hd; simpl.
    + intros Hv. exists (u, d). split; [|by apply adj_elem_of].
      simpl. apply list_elem_of_fmap. by exists v.
    + intros H. by apply elem_of_nil in H.
Qed.

Lemma nodes_copy G : wf G → nodes (copy G) = nodes G.
Proof.
  intros HG. unfold copy. rewrite add_edges_from_nodes.
  - rewrite add_nodes_from_nodes; [done|]. simpl. apply HG.
  - intros [u v] Huv%elem_of_adj_pairs; [|apply HG]. simpl.
    rewrite add_nodes_from_nodes by apply HG. simpl.
    split; [by eapply has_edge_node|by eapply wf_closed].
Qed.

Lemma has_edge_copy G u v : wf G → has_edge (copy G) u v ↔ has_edge G u v.
Proof.
  intros HG. unfold copy. rewrite has_edge_add_edges_from.
  rewrite !elem_of_adj_pairs by apply HG.
  assert (¬ has_edge (add_nodes_from empty (nodes G)) u v) as Hno.
  { unfold has_edge, adj_list. rewrite adj_add_nodes_from. simpl.
    destruct (decide (u ∈ nodes G)); simpl; apply not_elem_of_nil. }
  split; [|by auto]. intros [?|[?|?]]; [done|done|]. by apply wf_sym.
Qed.

Lemma wf_add_node G u : wf G → wf (add_node G u).
Proof.
  intros HG. unfold add_node. destruct (decide (u ∈ nodes G)) as [|Hu]; [done|].
  assert (∀ w, adj_list (G ++ [(u, [])]) w = adj_list G w) as Hadj.
  { intros w. unfold adj_list. rewrite adj_app. simpl.
    destruct (adj G w); [done|]. by destruct (decide (u = w)). }
  split.
  - pose proof (NoDup_add_node G u (wf_nodes G HG)) as Hnd.
    unfold add_node in Hnd. by rewrite decide_False in Hnd.
  - intros w d Hw. pose proof (Hadj w) as Hw'. unfold adj_list in Hw'.
    rewrite Hw in Hw'. simpl in Hw'. rewrite Hw'. by apply NoDup_adj_list.
  - unfold has_edge. intros w v. rewrite Hadj. intros Hwv.
    unfold nodes. rewrite fmap_app. apply elem_of_app. left.
    by eapply wf_closed.
  - unfold has_edge. intros w v. rewrite !Hadj. by apply wf_sym.
Qed.

Lemma wf_add_nodes_from G ns : wf G → wf (add_nodes_from G ns).
Proof.
  unfold add_nodes_from. revert G.
  induction ns as [|n ns IH]; intros G HG; simpl; [done|].
  by apply IH, wf_add_node.
Qed.

Lemma wf_copy G : wf (copy G).
Proof. apply wf_add_edges_from, wf_add_nodes_from, wf_empty. Qed.

Lemma degree_copy G u : wf G → degree (copy G) u = degree G u.
Proof.
  intros HG. unfold degree, degree_of.
  assert (adj_list (copy G) u ≡ₚ adj_list G u) as Hperm.
  { apply NoDup_Permutation.
    - apply NoDup_adj_list, wf_copy.
    - by apply NoDup_adj_list.
    - intros v. by apply (has_edge_copy G u v). }
  rewrite (Permutation_length Hperm). f_equal.
  destruct (decide (u ∈ adj_list (copy G) u)) as [H|H],
    (decide (u ∈ adj_list G u)) as [H'|H']; try done;
    rewrite Hperm in H; done.
Qed.

End nx_facts.

(** ** Facts about the random draws *)

Section rand_facts.
Context {A : Type}.
Implicit Types (x seq : list A) (g : Rand.state).

Lemma swap_Permutation x i j : Rand.swap x i j ≡ₚ x.
Proof.
  unfold Rand.swap.
  destruct (x !! i) as [xi|] eqn:Hi; [|done].
  destruct (x !! j) as [xj|] eqn:Hj; [|done].
  by apply Permutation_insert_swap.
Qed.

Lemma shuffle_from_Permutation i x g : (Rand.shuffle_from i x g).1 ≡ₚ x.
Proof.
  revert x g. induction i as [|i IH]; intros x g; simpl; [done|].
  rewrite IH. apply swap_Permutation.
Qed.

Lemma shuffle_Permutation x g : (Rand.shuffle x g).1 ≡ₚ x.
Proof. apply shuffle_from_Permutation. Qed.

Lemma choice_nil g : Rand.choice (@nil A) g = Raise IndexError.
Proof. done. Qed.

Lemma choice_elem_of seq g :
  seq ≠ [] → ∃ a g', Rand.choice seq g = Ok (a, g') ∧ a ∈ seq.
Proof.
  intros Hne. unfold Rand.choice.
  destruct seq as [|a0 seq]; [done|].
  cbv beta iota zeta delta [Rand.randbelow].
  set (i := (g 0 mod length (a0 :: seq))%nat).
  assert (i < length (a0 :: seq))%nat as Hi.
  { apply Nat.mod_upper_bound. simpl. lia. }
  apply lookup_lt_is_Some in Hi as [a Ha]. rewrite Ha.
  exists a, (λ k, g (S k)). split; [done|].
  by eapply list_elem_of_lookup_2.
Qed.

Lemma choice_inv seq g a g' :
  Rand.choice seq g = Ok (a, g') → a ∈ seq.
Proof.
  destruct (decide (seq = [])) as [->|Hne]; [done|].
  destruct (choice_elem_of seq g Hne) as (a1 & g1 & -> & Hin).
  by intros [= <- <-].
Qed.

End rand_facts.

Section rand_ext.
Context {A : Type}.
Implicit Types (x seq : list A) (g : Rand.state).



End rand_ext.

(** ** The breadth-first expansion *)

Section expand_facts.
Variables (G : Nx.Graph) (num_nodes : Z) (start : node).
Hypothesis HG : Nx.wf G.
Implicit Types (S : gset node) (queue pending : list node) (u v : node).

Lemma edge_within_mono S S' u v :
  S ⊆ S' → edge_within G S u v → edge_within G S' u v.
Proof. unfold edge_within. set_solver. Qed.

Lemma rtc_edge_within_mono S S' u v :
  S ⊆ S' → rtc (edge_within G S) u v → rtc (edge_within G S') u v.
Proof.
  intros HS. apply rtc_subrel. intros x y. by apply edge_within_mono.
Qed.

Lemma expanding_init : start ∈ Nx.nodes G → expanding G num_nodes start {[start]} [start].
Proof.
  intros Hs. split.
  - set_solver.
  - intros u ->%list_elem_of_singleton. set_solver.
  - intros u ->%elem_of_singleton. done.
  - intros u ->%elem_of_singleton. done.
  - rewrite size_singleton. lia.
  - intros u v _ ->%elem_of_singleton Hu. exfalso. apply Hu. set_solver.
Qed.

(** One neighbour of [current] goes through the body of the [for] loop. *)
Lemma expanding_visit S queue current x :
  expanding G num_nodes start S (current :: queue) →
  Nx.has_edge G current x →
  let st := visit num_nodes (S, queue) x in
  expanding G num_nodes start (fst st) (current :: snd st) ∧
  S ⊆ fst st ∧
  (size (fst st) + length queue = size S + length (snd st))%nat ∧
  (Z.of_nat (size (fst st)) < num_nodes → x ∈ fst st).
Proof.
  intros [Hs Hp Hn Hc Hb Hcl] Hx. unfold visit. simpl.
  destruct (decide ((x ∉ S) ∧ Z.of_nat (size S) < num_nodes)) as [[HxS Hlt]|Hno];
    simpl.
  - assert (size ({[x]} ∪ S) = Datatypes.S (size S)) as Hsz.
    { rewrite size_union by set_solver. rewrite size_singleton. done. }
    split_and!.
    + split.
      * set_solver.
      * intros u [->|[Hu| ->%list_elem_of_singleton]%elem_of_app]%elem_of_cons.
        -- apply elem_of_union_r, Hp. by left.
        -- apply elem_of_union_r, Hp. by right.
        -- set_solver.
      * intros u [->%elem_of_singleton|Hu]%elem_of_union; [|by auto].
        by eapply (Nx.wf_closed G HG).
      * intros u [->%elem_of_singleton|Hu]%elem_of_union.
        -- eapply rtc_r.
           ++ eapply (rtc_edge_within_mono S); [set_solver|].
              apply Hc, Hp. by left.
           ++ split; [done|]. split; [|set_solver].
              apply elem_of_union_r, Hp. by left.
        -- eapply (rtc_edge_within_mono S); [set_solver|]. by apply Hc.
      * rewrite Hsz. lia.
      * intros u v. rewrite Hsz. intros Hlt' Hu Hnp Huv.
        assert (u ≠ x) as Hux.
        { intros ->. apply Hnp. right. apply elem_of_app. right. by left. }
        apply elem_of_union_r. apply (Hcl u v); [lia|set_solver| |done].
        intros Hin. apply Hnp.
        apply elem_of_cons in Hin as [->|Hin]; [by left|].
        right. apply elem_of_app. by left.
    + set_solver.
    + rewrite Hsz, length_app. simpl. lia.
    + set_solver.
  - split_and!; [done|done|lia|].
    intros Hlt. destruct (decide (x ∈ S)) as [|HxS]; [done|].
    exfalso. apply Hno. done.
Qed.

(** The whole [for] loop over the neighbours of [current]. *)
Lemma expanding_visit_all nbrs S queue current :
  expanding G num_nodes start S (current :: queue) →
  (∀ x, x ∈ nbrs → Nx.has_edge G current x) →
  let st := foldl (visit num_nodes) (S, queue) nbrs in
  expanding G num_nodes start (fst st) (current :: snd st) ∧
  S ⊆ fst st ∧
  (size (fst st) + length queue = size S + length (snd st))%nat ∧
  (Z.of_nat (size (fst st)) < num_nodes → ∀ x, x ∈ nbrs → x ∈ fst st).
Proof.
  revert S queue. induction nbrs as [|x nbrs IH]; intros S queue HS Hnb; simpl.
  - split_and!; [done|done|done|]. intros _ x Hx. by apply elem_of_nil in Hx.
  - destruct (expanding_visit S queue current x HS) as (H1 & H2 & H3 & H4).
    { apply Hnb. by left. }
    destruct (visit num_nodes (S, queue) x) as [S1 q1] eqn:Hst. simpl in *.
    destruct (IH S1 q1 H1) as (I1 & I2 & I3 & I4).
    { intros y Hy. apply Hnb. by right. }
    split_and!; [done|set_solver|lia|].
    intros Hlt y [->|Hy]%elem_of_cons; [|by apply I4].
    apply I2, H4.
    assert (size S1 ≤ size (foldl (visit num_nodes) (S1, q1) nbrs).1)%nat
      by (by apply subseteq_size).
    lia.
Qed.

(** The [while] loop returns, and what held before it holds of its
    result, with no member left pending. *)
Lemma expand_expanding fuel S queue g :
  expanding G num_nodes start S queue →
  num_nodes + Z.of_nat (length queue) ≤ Z.of_nat fuel + Z.of_nat (size S) →
  ∃ S' g', expand fuel G num_nodes S queue g = Ok (S', g') ∧
           expanding G num_nodes start S' [] ∧ S ⊆ S'.
Proof.
  revert S queue g.
  induction fuel as [|fuel IH]; intros S queue g HS Hfuel;
    (destruct queue as [|current queue]; simpl;
     [exists S, g; split_and!; [done| |done];
      destruct HS; split; auto; intros u v _ Hu; by apply elem_of_nil in Hu|]);
    (destruct (decide (Z.of_nat (size S) < num_nodes)) as [Hlt|Hge];
     [|exists S, g; split_and!; [done| |done];
       destruct HS; split; auto;
       [intros u Hu; by apply elem_of_nil in Hu|intros; lia]]).
  - simpl in Hfuel. lia.
  - assert (current ∈ S) as Hcur by (apply (exp_pending HS); by left).
    destruct (Nx.adj G current) as [nbrs|] eqn:Hadj; last first.
    { apply adj_None in Hadj. destruct Hadj. by apply (exp_nodes HS). }
    unfold Nx.neighbors. rewrite Hadj. simpl.
    destruct (Rand.shuffle nbrs g) as [nbrs' g1] eqn:Hsh.
    assert (nbrs' ≡ₚ nbrs) as Hperm.
    { pose proof (shuffle_Permutation nbrs g) as Hp. by rewrite Hsh in Hp. }
    destruct (expanding_visit_all nbrs' S queue current HS)
      as (H1 & H2 & H3 & H4).
    { intros x Hx. unfold Nx.has_edge, Nx.adj_list. rewrite Hadj. simpl.
      by rewrite <-Hperm. }
    destruct (foldl (visit num_nodes) (S, queue) nbrs') as [S1 q1] eqn:Hst.
    simpl in *.
    destruct (IH S1 q1 g1) as (S' & g' & Hrun & Hfin & Hsub).
    + destruct H1 as [Hs Hp Hn Hc Hb Hcl]. split; auto.
      * intros u Hu. apply Hp. by right.
      * intros u v Hlt1 Hu Hnq Huv.
        destruct (decide (u = current)) as [->|Hne].
        -- apply H4; [done|]. rewrite Hperm.
           unfold Nx.has_edge, Nx.adj_list in Huv. by rewrite Hadj in Huv.
        -- apply (Hcl u v); [done|done| |done].
           intros [->|Hin]%elem_of_cons; done.
    + lia.
    + exists S', g'. split_and!; [done|done|set_solver].
Qed.


Lemma expanding_component S :
  expanding G num_nodes start S [] →
  Z.of_nat (size S) < num_nodes → component G start S.
Proof.
  intros [Hs Hp Hn Hc Hb Hcl] Hlt v. split.
  - intros Hv. eapply rtc_subrel; [|by apply Hc]. by intros x y [Hxy _].
  - revert v. apply rtc_ind_r; [done|]. intros y z _ Hyz IH.
    apply (Hcl y z); [done|done| |done].
    intros Hin. by apply elem_of_nil in Hin.
Qed.



End expand_facts.

(** ** Lists *)

Section list_facts.
Context {A : Type} (P : A → Prop) `{!∀ x, Decision (P x)}.

Lemma filter_all (l : list A) : (∀ x, x ∈ l → P x) → filter P l = l.
Proof.
  induction l as [|x l IH]; intros Hl; [done|].
  rewrite filter_cons_True by (apply Hl; by left).
  f_equal. apply IH. intros y Hy. apply Hl. by right.
Qed.

Lemma filter_none (l : list A) : (∀ x, x ∈ l → ¬ P x) → filter P l = [].
Proof.
  induction l as [|x l IH]; intros Hl; [done|].
  rewrite filter_cons_False by (apply Hl; by left).
  apply IH. intros y Hy. apply Hl. by right.
Qed.

Lemma list_argmax (f : A → nat) (l : list A) :
  l ≠ [] → ∃ x, x ∈ l ∧ ∀ y, y ∈ l → (f y ≤ f x)%nat.
Proof.
  induction l as [|x l IH]; intros Hl; [done|].
  destruct l as [|x' l].
  - exists x. split; [by left|]. intros y ->%list_elem_of_singleton. done.
  - destruct IH as (m & Hm & Hmax); [done|].
    destruct (decide (f m ≤ f x)%nat) as [Hle|Hgt].
    + exists x. split; [by left|].
      intros y [->|Hy]%elem_of_cons; [done|]. specialize (Hmax y Hy). lia.
    + exists m. split; [by right|].
      intros y [->|Hy]%elem_of_cons; [lia|]. by apply Hmax.
Qed.

Lemma length_filter_prefix (l : list A) (k : nat) :
  (∀ i x, l !! i = Some x → (i < k)%nat → P x) → (k ≤ length l)%nat →
  (k ≤ length (filter P l))%nat.
Proof.
  intros HP Hk. rewrite <-(take_drop k l), filter_app, length_app.
  rewrite (filter_all (take k l)).
  - rewrite length_take. lia.
  - intros x [i Hi]%list_elem_of_lookup.
    apply lookup_take_Some in Hi as [Hi Hlt]. by eapply HP.
Qed.

Lemma length_filter_suffix (l : list A) (k : nat) :
  (∀ i x, l !! i = Some x → (k ≤ i)%nat → P x) →
  (length l - k ≤ length (filter P l))%nat.
Proof.
  intros HP. rewrite <-(take_drop k l) at 2. rewrite filter_app, length_app.
  rewrite (filter_all (drop k l)).
  - rewrite length_drop. lia.
  - intros x [i Hi]%list_elem_of_lookup.
    rewrite lookup_drop in Hi. eapply HP; [done|lia].
Qed.

End list_facts.

(** ** The percentile and the comparisons *)

Section np_facts.
Implicit Types (a b : list Z) (q x d : Z) (t : Q).

Lemma StronglySorted_lookup_le (l : list Z) (i j : nat) x y :
  StronglySorted Z.le l → l !! i = Some x → l !! j = Some y →
  (i ≤ j)%nat → x ≤ y.
Proof.
  intros Hl. revert i j. induction Hl as [|z l Hl IH Hz]; intros i j Hi Hj Hij.
  - done.
  - destruct i as [|i], j as [|j]; simpl in *; simplify_eq; try lia.
    + rewrite Forall_forall in Hz. apply Hz.
      by eapply list_elem_of_lookup_2.
    + apply (IH i j); [done|done|lia].
Qed.



(** The value of the percentile, by positions in the sorted data. *)
Lemma percentile_sorted a q :
  a ≠ [] → 0 ≤ q ≤ 100 →
  let arr := merge_sort Z.le a in
  let n := Z.of_nat (length a) in
  let lo := Z.to_nat ((n - 1) * q / 100) in
  let hi := Z.to_nat (Z.min ((n - 1) * q / 100 + 1) (n - 1)) in
  ∃ previous next,
    arr !! lo = Some previous ∧ arr !! hi = Some next ∧
    (lo ≤ hi < length a)%nat ∧
    Np.percentile a q =
      Np.Real (Qmake (100 * previous
                      + (next - previous) * ((n - 1) * q mod 100)) 100).
Proof.
  intros Ha Hq. destruct a as [|x0 a0]; [done|]. clear Ha.
  unfold Np.percentile. cbv beta iota zeta.
  set (a := x0 :: a0). set (arr := merge_sort Z.le a).
  set (n := Z.of_nat (length a)).
  assert (1 ≤ n) as Hn by (subst a n; simpl; lia).
  assert (0 ≤ (n - 1) * q / 100 ≤ n - 1) as Hlo.
  { split; [apply Z.div_pos; nia|]. apply Z.div_le_upper_bound; nia. }
  set (d := (n - 1) * q / 100) in *.
  set (lo := Z.to_nat d).
  set (hi := Z.to_nat (Z.min (d + 1) (n - 1))).
  assert (length arr = length a) as Hlen.
  { apply Permutation_length, merge_sort_Permutation. }
  destruct (lookup_lt_is_Some_2 arr lo) as [p Hp]; [subst lo; lia|].
  destruct (lookup_lt_is_Some_2 arr hi) as [nx Hnx]; [subst hi; lia|].
  exists p, nx. rewrite Hp, Hnx. simpl.
  split_and!; [done|done| | |done].
  - subst lo hi. clearbody d. lia.
  - apply lookup_lt_Some in Hnx. by rewrite Hlen in Hnx.
Qed.

(** The value of the percentile: an interpolation between two entries of
    the data, the lower one first. *)
Lemma percentile_interpolates a q :
  a ≠ [] → 0 ≤ q ≤ 100 →
  ∃ previous next gamma,
    previous ∈ a ∧ next ∈ a ∧ previous ≤ next ∧ 0 ≤ gamma < 100 ∧
    Np.percentile a q =
      Np.Real (Qmake (100 * previous + (next - previous) * gamma) 100).
Proof.
  intros Ha Hq.
  destruct (percentile_sorted a q Ha Hq) as (p & nx & Hp & Hnx & Hi & ->).
  exists p, nx, ((Z.of_nat (length a) - 1) * q mod 100).
  assert (∀ i y, merge_sort Z.le a !! i = Some y → y ∈ a) as Hin.
  { intros i y Hy. rewrite <-(merge_sort_Permutation Z.le a).
    by eapply list_elem_of_lookup_2. }
  split_and!; eauto.
  - eapply (StronglySorted_lookup_le (merge_sort Z.le a)); [|done|done|lia].
    apply StronglySorted_merge_sort; apply _.
  - apply Z.mod_pos_bound. lia.
  - apply Z.mod_pos_bound. lia.
Qed.

(** What makes the value a [q]-th percentile: of the [n] data, more than
    [q] percent of [n - 1] are at most the value, and at least [100 - q]
    percent of [n - 1] are at least the value. *)
Lemma percentile_rank a q :
  a ≠ [] → 0 ≤ q ≤ 100 →
  ∃ t, Np.percentile a q = Np.Real t ∧
    (Z.of_nat (length a) - 1) * q <
      100 * Z.of_nat (length (filter (λ x, Qle_bool (inject_Z x) t = true) a)) ∧
    (Z.of_nat (length a) - 1) * (100 - q) ≤
      100 * Z.of_nat (length (filter (λ x, Qle_bool t (inject_Z x) = true) a)).
Proof.
  intros Ha Hq.
  destruct (percentile_sorted a q Ha Hq) as (p & nx & Hp & Hnx & Hi & ->).
  set (arr := merge_sort Z.le a) in *.
  assert (StronglySorted Z.le arr) as Hsorted
    by (apply StronglySorted_merge_sort; apply _).
  assert (arr ≡ₚ a) as Hperm by apply merge_sort_Permutation.
  assert (length arr = length a) as Hlen by by apply Permutation_length.
  assert (1 ≤ Z.of_nat (length a)) as Hn by (destruct a; [done|simpl; lia]).
  set (n := Z.of_nat (length a)) in *.
  set (v := (n - 1) * q) in *.
  assert (0 ≤ v) as Hv by (subst v; nia).
  assert (v ≤ 100 * (n - 1)) as Hv' by (subst v; nia).
  assert ((n - 1) * (100 - q) = 100 * (n - 1) - v) as Hv'' by (subst v; lia).
  pose proof (Z.div_mod v 100 ltac:(lia)) as Hdm.
  pose proof (Z.mod_pos_bound v 100 ltac:(lia)) as Hgm.
  set (gm := v mod 100) in *. set (d := v / 100) in *.
  clearbody gm d v.
  assert (p ≤ nx) as Hle.
  { eapply (StronglySorted_lookup_le arr); [done|done|done|lia]. }
  eexists. split; [done|]. rewrite <-!Hperm. split.
  - cut (S (Z.to_nat d) ≤ length
           (filter (λ x, Qle_bool (inject_Z x)
              (Qmake (100 * p + (nx - p) * gm) 100) = true) arr))%nat; [lia|].
    apply length_filter_prefix; [|lia].
    intros i x Hx Hlt. apply Qle_bool_iff. unfold Qle, inject_Z. simpl.
    assert (x ≤ p).
    { eapply (StronglySorted_lookup_le arr); [done|done|done|lia]. }
    nia.
  - rewrite Hv''.
    cut (length arr - Z.to_nat (Z.min (d + 1) (n - 1)) ≤
         length (filter (λ x, Qle_bool (Qmake (100 * p + (nx - p) * gm) 100)
                                (inject_Z x) = true) arr))%nat; [lia|].
    apply length_filter_suffix.
    intros i x Hx Hlt. apply Qle_bool_iff. unfold Qle, inject_Z. simpl.
    assert (nx ≤ x).
    { eapply (StronglySorted_lookup_le arr); [done|done|done|lia]. }
    nia.
Qed.

Lemma ge_Real x t : Np.ge x (Np.Real t) = true ↔ (t <= inject_Z x)%Q.
Proof. apply Qle_bool_iff. Qed.

Lemma lt_Real x t : Np.lt x (Np.Real t) = true ↔ (inject_Z x < t)%Q.
Proof.
  simpl. destruct (Qlt_le_dec (inject_Z x) t) as [H|H].
  - done.
  - split; [done|]. intros H'. by apply Qlt_not_le in H'.
Qed.

(** On a finite threshold exactly one of the two comparisons holds. *)
Lemma ge_lt_Real x t : Np.ge x (Np.Real t) = negb (Np.lt x (Np.Real t)).
Proof.
  destruct (Np.lt x (Np.Real t)) eqn:Hlt; simpl.
  - apply lt_Real in Hlt. apply not_true_is_false.
    intros Hge%ge_Real. by apply Qlt_not_le in Hlt.
  - apply ge_Real. apply Qnot_lt_le. rewrite <-lt_Real. by rewrite Hlt.
Qed.

(** The percentile does not exceed an upper bound of the data. *)
Lemma percentile_le_max a q x :
  a ≠ [] → 0 ≤ q ≤ 100 → (∀ y, y ∈ a → y ≤ x) →
  Np.ge x (Np.percentile a q) = true.
Proof.
  intros Ha Hq Hx.
  destruct (percentile_interpolates a q Ha Hq)
    as (p & nx & gm & Hp & Hnx & Hle & Hgm & ->).
  apply ge_Real. unfold Qle, inject_Z. simpl.
  pose proof (Hx p Hp). pose proof (Hx nx Hnx). nia.
Qed.

(** On data that are all equal to [d] the percentile is [d]. *)
Lemma percentile_uniform a q d :
  a ≠ [] → 0 ≤ q ≤ 100 → (∀ y, y ∈ a → y = d) →
  ∃ t, Np.percentile a q = Np.Real t ∧ (t == inject_Z d)%Q.
Proof.
  intros Ha Hq Hd.
  destruct (percentile_interpolates a q Ha Hq)
    as (p & nx & gm & Hp & Hnx & Hle & Hgm & ->).
  eexists. split; [done|].
  rewrite (Hd p Hp), (Hd nx Hnx). unfold Qeq, inject_Z. simpl. lia.
Qed.

End np_facts.

(** ** The function as a whole *)

Section viz_facts.
Context {Layout : Type} (spring_layout : Nx.Graph → Z → Z → Z → Layout).
Implicit Types (edge_list : list (node * node)) (g : Rand.state).
Implicit Types (r : viz Layout) (G : Nx.Graph).

Lemma wf_full edge_list : Nx.wf (Nx.add_edges_from Nx.empty edge_list).
Proof. apply wf_add_edges_from, wf_empty. Qed.

Lemma elem_of_moderate_nodes G v :
  NoDup (Nx.nodes G) → v ∈ moderate_nodes (Nx.degrees G) ↔ in_band G v.
Proof.
  intros HG. unfold moderate_nodes, in_band, Nx.degrees.
  rewrite list_elem_of_fmap. split.
  - intros ([n d] & -> & Hp). apply list_elem_of_filter in Hp as [Hband Hp].
    apply list_elem_of_fmap in Hp as ([k l] & [= -> ->] & Hkl). simpl in *.
    pose proof (elem_of_adj G k l HG Hkl) as Hadj.
    unfold Nx.degree, Nx.adj_list. rewrite Hadj. simpl. split; [|done].
    apply adj_is_Some. eauto.
  - intros [Hv Hband]. apply adj_is_Some in Hv as [l Hl].
    exists (v, Nx.degree_of v l). split; [done|].
    unfold Nx.degree, Nx.adj_list in Hband. rewrite Hl in Hband.
    apply list_elem_of_filter. split; [done|].
    apply list_elem_of_fmap. exists (v, l). split; [done|].
    by apply adj_elem_of.
Qed.

(** Every call either fails in seed selection, with no candidate, or
    returns a record whose fields hang together. *)
Lemma network_viz_cases edge_list num_nodes g :
  (moderate_nodes (Nx.degrees (Nx.add_edges_from Nx.empty edge_list)) = [] ∧
   network_viz spring_layout edge_list num_nodes g = Raise IndexError) ∨
  (∃ r g', network_viz spring_layout edge_list num_nodes g = Ok (r, g') ∧
           sampled spring_layout edge_list num_nodes r).
Proof.
  unfold network_viz.
  set (G := Nx.add_edges_from Nx.empty edge_list).
  assert (Nx.wf G) as HG by apply wf_full.
  destruct (moderate_nodes (Nx.degrees G)) as [|m ms] eqn:Hmod.
  { left. done. }
  right.
  destruct (choice_elem_of (m :: ms) g) as (start & g1 & Hch & Hin); [done|].
  rewrite Hch. unfold mbind, outcome_bind.
  assert (start ∈ Nx.nodes G) as Hstart.
  { rewrite <-Hmod in Hin. apply elem_of_moderate_nodes in Hin; [|apply HG].
    apply Hin. }
  destruct (expand_expanding G num_nodes start HG (Z.to_nat num_nodes)
              {[start]} [start] g1) as (S & g2 & Hrun & Hexp & Hsub).
  { by apply expanding_init. }
  { rewrite size_singleton. simpl. lia. }
  rewrite Hrun.
  set (Gs := Nx.copy (Nx.subgraph G S)).
  destruct (py_max (Z.of_nat <$> (Nx.degrees Gs).*2)) as [mx| |] eqn:Hmax.
  - eexists _, g2. split; [done|].
    split; simpl; try done. by rewrite Hmod.
  - exfalso. unfold py_max in Hmax.
    destruct (Z.of_nat <$> (Nx.degrees Gs).*2) eqn:Hd; [|done].
    apply fmap_nil_inv, fmap_nil_inv in Hd.
    assert (start ∈ Nx.nodes Gs) as Hs.
    { unfold Gs. rewrite nodes_copy by by apply wf_subgraph.
      rewrite nodes_subgraph. apply list_elem_of_filter. split; [|done].
      apply Hsub. set_solver. }
    rewrite <-degrees_keys, Hd in Hs. by apply elem_of_nil in Hs.
  - exfalso. unfold py_max in Hmax.
    by destruct (Z.of_nat <$> (Nx.degrees Gs).*2).
Qed.

Lemma network_viz_sampled edge_list num_nodes g r g' :
  network_viz spring_layout edge_list num_nodes g = Ok (r, g') →
  sampled spring_layout edge_list num_nodes r.
Proof.
  intros Hrun.
  destruct (network_viz_cases edge_list num_nodes g)
    as [[_ Hr]|(r1 & g1 & Hr & Hs)]; rewrite Hr in Hrun; [done|].
  by injection Hrun as <- <-.
Qed.

(** The bound on the rounds of the loop is never what stops a call. *)
Lemma network_viz_terminates edge_list num_nodes g :
  network_viz spring_layout edge_list num_nodes g ≠ OutOfFuel.
Proof.
  destruct (network_viz_cases edge_list num_nodes g)
    as [[_ ->]|(r & g' & -> & _)]; done.
Qed.

Lemma returns_with_sampled edge_list num_nodes g (P : viz Layout → Prop) :
  (∀ r, sampled spring_layout edge_list num_nodes r → P r) →
  returns_with spring_layout edge_list num_nodes g P.
Proof.
  intros HP. unfold returns_with.
  destruct (network_viz_cases edge_list num_nodes g)
    as [[Hmod ->]|(r & g' & -> & Hs)]; [|by apply HP].
  split; [done|]. intros v Hv.
  apply elem_of_moderate_nodes in Hv; [|apply wf_full].
  rewrite Hmod in Hv. by apply elem_of_nil in Hv.
Qed.

Section sampled.
Context (edge_list : list (node * node)) (num_nodes : Z) (r : viz Layout).
Hypothesis Hr : sampled spring_layout edge_list num_nodes r.

Lemma sampled_wf_full : Nx.wf (G_full r).
Proof. rewrite (s_full _ _ _ _ Hr). apply wf_full. Qed.

Lemma sampled_wf_sub : Nx.wf (G_sub r).
Proof. rewrite (s_sub _ _ _ _ Hr). apply wf_copy. Qed.

Lemma sampled_start : in_band (G_full r) (start_node r).
Proof.
  apply elem_of_moderate_nodes; [apply sampled_wf_full|].
  apply (s_start _ _ _ _ Hr).
Qed.

Lemma sampled_visited_nodes n : n ∈ visited r → n ∈ Nx.nodes (G_full r).
Proof. apply (exp_nodes (s_expanding _ _ _ _ Hr)). Qed.

Lemma sampled_nodes_sub n : n ∈ Nx.nodes (G_sub r) ↔ n ∈ visited r.
Proof.
  rewrite (s_sub _ _ _ _ Hr).
  rewrite nodes_copy by apply wf_subgraph, sampled_wf_full.
  rewrite nodes_subgraph, list_elem_of_filter.
  pose proof (sampled_visited_nodes n). naive_solver.
Qed.

Lemma sampled_has_edge_sub u v :
  Nx.has_edge (G_sub r) u v ↔ edge_within (G_full r) (visited r) u v.
Proof.
  rewrite (s_sub _ _ _ _ Hr).
  rewrite has_edge_copy by apply wf_subgraph, sampled_wf_full.
  apply has_edge_subgraph.
Qed.

Lemma sampled_degree_sub n :
  n ∈ visited r →
  Nx.degree (G_sub r) n = induced_degree (G_full r) (visited r) n.
Proof.
  intros Hn. rewrite (s_sub _ _ _ _ Hr).
  rewrite degree_copy by apply wf_subgraph, sampled_wf_full.
  unfold Nx.degree, induced_degree. by rewrite adj_list_subgraph.
Qed.

Lemma sampled_getitem n :
  getitem (sub_degrees r) n = Z.of_nat (Nx.degree (G_sub r) n).
Proof. rewrite (s_degrees _ _ _ _ Hr). apply getitem_degrees. Qed.

Lemma sampled_values :
  Z.of_nat <$> (sub_degrees r).*2 =
    (λ n, Z.of_nat (Nx.degree (G_sub r) n)) <$> Nx.nodes (G_sub r).
Proof.
  rewrite (s_degrees _ _ _ _ Hr).
  rewrite degrees_values by apply sampled_wf_sub.
  by rewrite <-list_fmap_compose.
Qed.

Lemma sampled_nodes_sub_nonempty : Nx.nodes (G_sub r) ≠ [].
Proof.
  intros Hnil.
  assert (start_node r ∈ Nx.nodes (G_sub r)) as Hs.
  { apply sampled_nodes_sub, (exp_start _ _ _ _ _ (s_expanding _ _ _ _ Hr)). }
  rewrite Hnil in Hs. by apply elem_of_nil in Hs.
Qed.

Lemma sampled_values_nonempty : Z.of_nat <$> (sub_degrees r).*2 ≠ [].
Proof.
  rewrite sampled_values. intros Hnil%fmap_nil_inv.
  by apply sampled_nodes_sub_nonempty.
Qed.

Lemma sampled_threshold_Real : ∃ t, degree_threshold r = Np.Real t.
Proof.
  rewrite (s_threshold _ _ _ _ Hr).
  destruct (percentile_interpolates (Z.of_nat <$> (sub_degrees r).*2) 70)
    as (p & nx & gm & _ & _ & _ & _ & ->); [|lia|by eauto].
  apply sampled_values_nonempty.
Qed.

Lemma sampled_popular n :
  n ∈ popular_pages r ↔
  n ∈ Nx.nodes (G_sub r) ∧
  Np.ge (Z.of_nat (Nx.degree (G_sub r) n)) (degree_threshold r) = true.
Proof.
  rewrite (s_popular _ _ _ _ Hr), list_elem_of_filter, sampled_getitem.
  naive_solver.
Qed.

Lemma sampled_regular n :
  n ∈ regular_pages r ↔
  n ∈ Nx.nodes (G_sub r) ∧
  Np.lt (Z.of_nat (Nx.degree (G_sub r) n)) (degree_threshold r) = true.
Proof.
  rewrite (s_regular _ _ _ _ Hr), list_elem_of_filter, sampled_getitem.
  naive_solver.
Qed.

End sampled.

End viz_facts.

(** ** Properties of network_viz *)

Section properties.
Context {Layout : Type} (spring_layout : Nx.Graph → Z → Z → Z → Layout).
Implicit Types (edge_list : list (node * node)) (g : Rand.state).
Implicit Types (r : viz Layout).

Lemma rtc_symmetric {A} (R : relation A) x y :
  (∀ a b, R a b → R b a) → rtc R x y → rtc R y x.
Proof.
  intros Hsym Hxy. induction Hxy as [|x x' y Hx _ IH]; [done|].
  eapply rtc_r; [exact IH|]. by apply Hsym.
Qed.


Lemma component_unique (G : Nx.Graph) start comp1 comp2 :
  component G start comp1 → component G start comp2 → comp1 = comp2.
Proof. unfold component. intros H1 H2. apply set_eq. intros v. by rewrite H1, H2. Qed.


(** C2: the Sampled Subgraph is the subgraph induced by the Sample Set:
    its nodes are the members of the Sample Set, all of them nodes of the
    full graph, and its edges are the edges of the full graph with both
    endpoints in the Sample Set. *)
Theorem subgraph_induced edge_list num_nodes g :
  returns_with spring_layout edge_list num_nodes g (λ r,
    (∀ n, n ∈ Nx.nodes (G_sub r) → n ∈ Nx.nodes (G_full r)) ∧
    (∀ n, n ∈ Nx.nodes (G_sub r) ↔ n ∈ visited r) ∧
    (∀ u v, Nx.has_edge (G_sub r) u v ↔
            Nx.has_edge (G_full r) u v ∧ u ∈ visited r ∧ v ∈ visited r)).
Proof.
  apply returns_with_sampled. intros r Hr. split_and!.
  - intros n Hn%(sampled_nodes_sub _ _ _ _ Hr).
    by eapply sampled_visited_nodes.
  - intros n. by eapply sampled_nodes_sub.
  - intros u v. by eapply sampled_has_edge_sub.
Qed.

(** C3: when some node of the full graph has its degree in the band
    [20, 100], the call returns and the seed it selected is a node of the
    full graph whose degree lies in that band. *)
Theorem seed_in_band edge_list num_nodes g :
  (∃ v, in_band (Nx.add_edges_from Nx.empty edge_list) v) →
  ∃ r g',
    network_viz spring_layout edge_list num_nodes g = Ok (r, g') ∧
    G_full r = Nx.add_edges_from Nx.empty edge_list ∧
    start_node r ∈ Nx.nodes (G_full r) ∧
    (20 ≤ Nx.degree (G_full r) (start_node r) ≤ 100)%nat.
Proof.
  intros [v Hv].
  destruct (network_viz_cases spring_layout edge_list num_nodes g)
    as [[Hmod _]|(r & g' & Hrun & Hr)].
  - apply elem_of_moderate_nodes in Hv; [|apply wf_full].
    rewrite Hmod in Hv. by apply elem_of_nil in Hv.
  - exists r, g'. split; [done|]. split; [apply Hr|].
    by eapply sampled_start.
Qed.

(** C4: the two groups partition the nodes of the Sampled Subgraph: the
    threshold is a number, a node is in the high-connectivity group exactly
    when its subgraph degree is at least the threshold and in the regular
    group exactly when it is below, so it is in one group and not in the
    other; a node whose degree equals the threshold is in the
    high-connectivity group; the groups hold nodes of the subgraph only. *)
Theorem classification_partition edge_list num_nodes g :
  returns_with spring_layout edge_list num_nodes g (λ r,
    ∃ t, degree_threshold r = Np.Real t ∧
      (∀ n, n ∈ Nx.nodes (G_sub r) →
         let d := inject_Z (Z.of_nat (Nx.degree (G_sub r) n)) in
         (n ∈ popular_pages r ↔ (t <= d)%Q) ∧
         (n ∈ regular_pages r ↔ (d < t)%Q) ∧
         (n ∈ popular_pages r ↔ n ∉ regular_pages r) ∧
         ((d == t)%Q → n ∈ popular_pages r)) ∧
      (∀ n, n ∈ popular_pages r ∨ n ∈ regular_pages r →
            n ∈ Nx.nodes (G_sub r))).
Proof.
  apply returns_with_sampled. intros r Hr.
  destruct (sampled_threshold_Real _ _ _ _ Hr) as [t Ht].
  exists t. split; [done|].
  assert (∀ n, n ∈ Nx.nodes (G_sub r) →
    (n ∈ popular_pages r ↔ (t <= inject_Z (Z.of_nat (Nx.degree (G_sub r) n)))%Q) ∧
    (n ∈ regular_pages r ↔ (inject_Z (Z.of_nat (Nx.degree (G_sub r) n)) < t)%Q))
    as Hcls.
  { intros n Hn.
    rewrite (sampled_popular _ _ _ _ Hr), (sampled_regular _ _ _ _ Hr), Ht.
    rewrite ge_Real, lt_Real. naive_solver. }
  split.
  - intros n Hn d. destruct (Hcls n Hn) as [Hp Hq]. fold d in Hp, Hq.
    split_and!; [done|done| |].
    + rewrite Hp, Hq. split; [apply Qle_not_lt|apply Qnot_lt_le].
    + intros Heq. apply Hp. rewrite Heq. apply Qle_refl.
  - intros n [Hn%(sampled_popular _ _ _ _ Hr)|Hn%(sampled_regular _ _ _ _ Hr)];
      apply Hn.
Qed.

Lemma nodes_sub_Permutation edge_list num_nodes r :
  sampled spring_layout edge_list num_nodes r →
  Nx.nodes (G_sub r) ≡ₚ elements (visited r).
Proof.
  intros Hr. apply NoDup_Permutation.
  - apply (sampled_wf_sub _ _ _ _ Hr).
  - apply NoDup_elements.
  - intros n. rewrite elem_of_elements. by eapply sampled_nodes_sub.
Qed.


(** C6: the Sampled Subgraph is connected: any two members of the Sample
    Set are joined by a path of edges of the Sampled Subgraph. *)
Theorem subgraph_connected edge_list num_nodes g :
  returns_with spring_layout edge_list num_nodes g (λ r,
    ∀ u v, u ∈ visited r → v ∈ visited r →
           rtc (Nx.has_edge (G_sub r)) u v).
Proof.
  apply returns_with_sampled. intros r Hr.
  assert (∀ u, u ∈ visited r →
            rtc (Nx.has_edge (G_sub r)) (start_node r) u) as Hfrom.
  { intros u Hu. eapply rtc_subrel;
      [|by apply (exp_conn _ _ _ _ _ (s_expanding _ _ _ _ Hr))].
    intros x y Hxy. by eapply sampled_has_edge_sub. }
  intros u v Hu Hv. eapply rtc_trans; [|by apply Hfrom].
  apply rtc_symmetric; [|by apply Hfrom].
  intros a b. apply Nx.wf_sym. by eapply sampled_wf_sub.
Qed.

(** C7: when no node of the full graph has its degree in the band
    [20, 100], seed selection raises [IndexError] and nothing is returned. *)
Theorem no_candidate_raises edge_list num_nodes g :
  (∀ v, ¬ in_band (Nx.add_edges_from Nx.empty edge_list) v) →
  network_viz spring_layout edge_list num_nodes g = Raise IndexError.
Proof.
  intros Hnone.
  destruct (network_viz_cases spring_layout edge_list num_nodes g)
    as [[_ Hrun]|(r & g' & _ & Hr)]; [done|].
  exfalso. apply (Hnone (start_node r)).
  rewrite <-(s_full _ _ _ _ Hr). by eapply sampled_start.
Qed.

(** C8, as the code has it: on a Sample Set whose members all have the
    same subgraph degree [d] the call completes; the threshold equals [d],
    every node is in the high-connectivity group, the regular group is
    empty and its mean is [nan]. *)
Theorem uniform_sample_completes edge_list num_nodes g :
  returns_with spring_layout edge_list num_nodes g (λ r,
    ∀ d : nat, (∀ n, n ∈ visited r → Nx.degree (G_sub r) n = d) →
      (∃ t, degree_threshold r = Np.Real t ∧ (t == inject_Z (Z.of_nat d))%Q) ∧
      popular_pages r = Nx.nodes (G_sub r) ∧
      regular_pages r = [] ∧
      regular_mean r = Np.NaN ∧
      ∃ m, popular_mean r = Np.Real m).
Proof.
  apply returns_with_sampled. intros r Hr d Hd.
  destruct (percentile_uniform (Z.of_nat <$> (sub_degrees r).*2) 70
              (Z.of_nat d)) as (t & Ht & Heq).
  { by eapply sampled_values_nonempty. }
  { lia. }
  { rewrite (sampled_values _ _ _ _ Hr).
    intros y (n & -> & Hn)%list_elem_of_fmap. f_equal. apply Hd.
    by eapply sampled_nodes_sub. }
  rewrite <-(s_threshold _ _ _ _ Hr) in Ht.
  assert (∀ n, n ∈ Nx.nodes (G_sub r) →
            Np.ge (getitem (sub_degrees r) n) (degree_threshold r) = true)
    as Hge.
  { intros n Hn. rewrite (sampled_getitem _ _ _ _ Hr), Ht.
    apply ge_Real. rewrite Heq, Hd; [apply Qle_refl|].
    by eapply sampled_nodes_sub. }
  assert (popular_pages r = Nx.nodes (G_sub r)) as Hpop.
  { rewrite (s_popular _ _ _ _ Hr). by apply filter_all. }
  assert (regular_pages r = []) as Hreg.
  { rewrite (s_regular _ _ _ _ Hr). apply filter_none. intros n Hn.
    specialize (Hge n Hn). rewrite Ht in Hge |- *.
    rewrite ge_lt_Real in Hge. by destruct (Np.lt _ _). }
  split_and!; [by eauto|done|done| |].
  - by rewrite (s_regular_mean _ _ _ _ Hr), Hreg.
  - rewrite (s_popular_mean _ _ _ _ Hr), Hpop.
    pose proof (sampled_nodes_sub_nonempty _ _ _ _ Hr) as Hne.
    destruct (Nx.nodes (G_sub r)); [done|]. simpl. by eauto.
Qed.


(** C10: the high-connectivity group is never empty: every node of maximum
    subgraph degree is in it, so the mean degree of the group is the mean
    of a non-empty list, a number. *)
Theorem popular_nonempty edge_list num_nodes g :
  returns_with spring_layout edge_list num_nodes g (λ r,
    popular_pages r ≠ [] ∧
    (∀ n, n ∈ Nx.nodes (G_sub r) →
          (∀ k, k ∈ Nx.nodes (G_sub r) →
                (Nx.degree (G_sub r) k ≤ Nx.degree (G_sub r) n)%nat) →
          n ∈ popular_pages r) ∧
    ∃ m, popular_mean r = Np.Real m).
Proof.
  apply returns_with_sampled. intros r Hr.
  assert (∀ n, n ∈ Nx.nodes (G_sub r) →
            (∀ k, k ∈ Nx.nodes (G_sub r) →
                  (Nx.degree (G_sub r) k ≤ Nx.degree (G_sub r) n)%nat) →
            n ∈ popular_pages r) as Hmax.
  { intros n Hn Hk. apply (sampled_popular _ _ _ _ Hr). split; [done|].
    rewrite (s_threshold _ _ _ _ Hr). apply percentile_le_max.
    - by eapply sampled_values_nonempty.
    - lia.
    - rewrite (sampled_values _ _ _ _ Hr).
      intros y (k & -> & Hin)%list_elem_of_fmap. specialize (Hk k Hin). lia. }
  assert (popular_pages r ≠ []) as Hne.
  { destruct (list_argmax (Nx.degree (G_sub r)) (Nx.nodes (G_sub r)))
      as (n & Hn & Hk); [by eapply sampled_nodes_sub_nonempty|].
    intros Hnil. specialize (Hmax n Hn Hk). rewrite Hnil in Hmax.
    by apply elem_of_nil in Hmax. }
  split_and!; [done|done|].
  rewrite (s_popular_mean _ _ _ _ Hr).
  destruct (popular_pages r); [done|]. simpl. by eauto.
Qed.

End properties.

(** ** The properties at sample inputs *)

Lemma star_in_band : in_band (Nx.add_edges_from Nx.empty (star 20)) 0.
Proof. split; [by vm_compute; left|vm_compute; lia]. Qed.

Lemma small_graph_no_candidate v :
  ¬ in_band (Nx.add_edges_from Nx.empty small_graph) v.
Proof.
  intros Hv.
  apply (proj2 (elem_of_moderate_nodes _ _ (Nx.wf_nodes _ (wf_full _)))) in Hv.
  vm_compute in Hv. by apply elem_of_nil in Hv.
Qed.

(** A hub with twenty leaves, sampled down to five nodes: the sample is
    full, and the threshold, [1], puts all five nodes in one group. *)
Example star_sample_5 :
  observe (network_viz no_layout (star 20) 5 g0) =
    Ok (0, [0; 2; 3; 5; 14], [4; 1; 1; 1; 1]%nat, Np.Real (Qmake 100 100),
        [0; 2; 3; 5; 14], [], Np.NaN).
Proof. vm_compute. reflexivity. Qed.

(** With a bound above the size of the component the sample is the whole
    component, 21 nodes. *)
Example star_sample_80 :
  observe (network_viz no_layout (star 20) 80 g0) =
    Ok (0, Z.of_nat <$> seq 0 21, 20%nat :: replicate 20 1%nat,
        Np.Real (Qmake 100 100), Z.of_nat <$> seq 0 21, [], Np.NaN).
Proof. vm_compute. reflexivity. Qed.

(** The threshold comes from the degrees inside the sample: for the sample
    [0; 2; 5; 14] they are [3; 1; 1; 1] and give [1.2], while the degrees of
    the same nodes in the full graph, [20; 3; 1; 1], would give [4.7]. *)
Example threshold_is_local :
  let edge_list := star 20 ++ [(1, 2); (2, 3); (3, 3)] in
  observe (network_viz no_layout edge_list 4 g0) =
    Ok (0, [0; 2; 5; 14], [3; 1; 1; 1]%nat, Np.Real (Qmake 120 100),
        [0], [2; 5; 14], Np.Real (Qmake 3 3)) ∧
  Nx.degree (Nx.add_edges_from Nx.empty edge_list) <$> [0; 2; 5; 14] =
    [20; 3; 1; 1]%nat ∧
  Np.percentile [20; 3; 1; 1] 70 = Np.Real (Qmake 470 100).
Proof. vm_compute. done. Qed.

(** A call advances the generator: a second call that starts where the
    first one stopped may draw another sample. *)
Example second_call_differs :
  ∃ r1 g1 r2 g2,
    network_viz no_layout (star 20) 3 g0 = Ok (r1, g1) ∧
    network_viz no_layout (star 20) 3 g1 = Ok (r2, g2) ∧
    elements (visited r1) ≠ elements (visited r2).
Proof.
  eexists _, _, _, _. split; [vm_compute; reflexivity|].
  split; [vm_compute; reflexivity|]. vm_compute. intros [=].
Qed.


Lemma seed_in_band_witness :
  (∃ v, in_band (Nx.add_edges_from Nx.empty (star 20)) v) ∧
  ∃ r g',
    network_viz no_layout (star 20) 5 g0 = Ok (r, g') ∧
    G_full r = Nx.add_edges_from Nx.empty (star 20) ∧
    start_node r ∈ Nx.nodes (G_full r) ∧
    (20 ≤ Nx.degree (G_full r) (start_node r) ≤ 100)%nat.
Proof.
  assert (∃ v, in_band (Nx.add_edges_from Nx.empty (star 20)) v) as H.
  { exists 0. split; [by vm_compute; left|vm_compute; lia]. }
  split; [exact H|]. exact (seed_in_band no_layout (star 20) 5 g0 H).
Defined.

Lemma no_candidate_raises_witness :
  (∀ v, ¬ in_band (Nx.add_edges_from Nx.empty small_graph) v) ∧
  network_viz no_layout small_graph 4 g0 = Raise IndexError.
Proof.
  split; [exact small_graph_no_candidate|].
  exact (no_candidate_raises no_layout small_graph 4 g0
           small_graph_no_candidate).
Defined.

(** C8, as claimed, fails: the sample [0; 2] of the hub and one leaf has the
    uniform degrees [1; 1], and the call returns: both nodes are in the
    high-connectivity group and the mean over the empty regular group is
    [nan]. *)
Lemma uniform_sample_returns :
  ∃ r g',
    network_viz no_layout (star 20) 2 g0 = Ok (r, g') ∧
    Nx.nodes (G_sub r) = [0; 2] ∧
    Nx.degree (G_sub r) <$> Nx.nodes (G_sub r) = [1; 1]%nat ∧
    popular_pages r = [0; 2] ∧ regular_pages r = [] ∧
    regular_mean r = Np.NaN.
Proof.
  eexists _, _. split; [vm_compute; reflexivity|]. vm_compute. done.
Qed.

Lemma uniform_sample_completes_witness :
  returns_with no_layout (star 20) 2 g0 (λ r,
    ∀ d : nat, (∀ n, n ∈ visited r → Nx.degree (G_sub r) n = d) →
      (∃ t, degree_threshold r = Np.Real t ∧ (t == inject_Z (Z.of_nat d))%Q) ∧
      popular_pages r = Nx.nodes (G_sub r) ∧
      regular_pages r = [] ∧
      regular_mean r = Np.NaN ∧
      ∃ m, popular_mean r = Np.Real m).
Proof. exact (uniform_sample_completes no_layout (star 20) 2 g0). Defined.



(** ** The rest of network_viz: edge cases, drawing and summary *)

Section more_facts.
Context {Layout : Type} (spring_layout : Nx.Graph → Z → Z → Z → Layout).
Implicit Types (edge_list : list (node * node)) (g : Rand.state).
Implicit Types (r : viz Layout).

Lemma network_viz_drawn edge_list num_nodes g r g' :
  network_viz spring_layout edge_list num_nodes g = Ok (r, g') → drawn r.
Proof.
  unfold network_viz, mbind, outcome_bind.
  destruct (Rand.choice _ g) as [[s g1]| |]; [|done|done].
  destruct (expand _ _ num_nodes {[s]} [s] g1) as [[S g2]| |]; [|done|done].
  destruct (py_max _) as [mx| |] eqn:Hmax; [|done|done].
  intros [= <- <-]. by split.
Qed.

Lemma returns_with_drawn edge_list num_nodes g (P : viz Layout → Prop) :
  (∀ r, sampled spring_layout edge_list num_nodes r → drawn r → P r) →
  returns_with spring_layout edge_list num_nodes g P.
Proof.
  intros HP.
  pose proof (returns_with_sampled spring_layout edge_list num_nodes g
                (λ r, drawn r → P r) HP) as H.
  unfold returns_with in *.
  destruct (network_viz spring_layout edge_list num_nodes g)
    as [[r g']| |] eqn:Hrun; [|done|done].
  apply H. by eapply network_viz_drawn.
Qed.

(** *** Helpers *)

Lemma sampled_connected edge_list num_nodes r u v :
  sampled spring_layout edge_list num_nodes r →
  u ∈ visited r → v ∈ visited r →
  rtc (edge_within (G_full r) (visited r)) u v.
Proof.
  intros Hr Hu Hv.
  pose proof (exp_conn _ _ _ _ _ (s_expanding _ _ _ _ Hr)) as Hfrom.
  eapply rtc_trans; [|by apply Hfrom].
  apply rtc_symmetric; [|by apply Hfrom].
  intros a b (Hab & Ha & Hb). split_and!; [|done|done].
  apply Nx.wf_sym; [|done]. by eapply sampled_wf_full.
Qed.

Lemma sampled_reachable edge_list num_nodes r v :
  sampled spring_layout edge_list num_nodes r →
  v ∈ visited r → rtc (Nx.has_edge (G_full r)) (start_node r) v.
Proof.
  intros Hr Hv. eapply rtc_subrel;
    [|by apply (exp_conn _ _ _ _ _ (s_expanding _ _ _ _ Hr))].
  by intros x y [Hxy _].
Qed.

Lemma sampled_number_of_nodes edge_list num_nodes r :
  sampled spring_layout edge_list num_nodes r →
  number_of_nodes (G_sub r) = size (visited r).
Proof.
  intros Hr. unfold number_of_nodes.
  by rewrite (nodes_sub_Permutation _ _ _ _ Hr).
Qed.

Lemma py_max_spec (values : list Z) m :
  py_max values = Ok m → m ∈ values ∧ ∀ x, x ∈ values → x ≤ m.
Proof.
  destruct values as [|x0 l]; [done|]. simpl. intros [= <-].
  assert (∀ l x, (foldl Z.max x l = x ∨ foldl Z.max x l ∈ l) ∧
                 x ≤ foldl Z.max x l ∧
                 ∀ y, y ∈ l → y ≤ foldl Z.max x l) as Hfold.
  { clear. induction l as [|z l IH]; intros x; simpl.
    - split_and!; [by left|lia|]. intros y Hy. by apply elem_of_nil in Hy.
    - destruct (IH (Z.max x z)) as (H1 & H2 & H3). split_and!.
      + destruct H1 as [H1|H1].
        * rewrite H1. destruct (Z.max_spec x z) as [[_ ->]|[_ ->]];
            [right; by left|by left].
        * right. by right.
      + lia.
      + intros y [->|Hy]%elem_of_cons; [lia|by apply H3]. }
  destruct (Hfold l x0) as (H1 & H2 & H3). split.
  - destruct H1 as [->|H1]; [by left|by right].
  - intros y [->|Hy]%elem_of_cons; [done|by apply H3].
Qed.

Lemma sum_scaled_le (a b : Z) (l : list Z) :
  (∀ x, x ∈ l → a ≤ x * b) →
  a * Z.of_nat (length l) ≤ foldr Z.add 0 l * b.
Proof.
  induction l as [|x l IH]; intros Hl; simpl; [lia|].
  pose proof (Hl x ltac:(by left)).
  pose proof (IH (λ y Hy, Hl y ltac:(by right))). lia.
Qed.

Lemma sum_scaled_lt (a b : Z) (l : list Z) :
  l ≠ [] → (∀ x, x ∈ l → x * b < a) →
  foldr Z.add 0 l * b < a * Z.of_nat (length l).
Proof.
  induction l as [|x l IH]; intros Hne Hl; [done|]. simpl.
  pose proof (Hl x ltac:(by left)).
  destruct l as [|y l]; [simpl; lia|].
  pose proof (IH ltac:(done) (λ z Hz, Hl z ltac:(by right))).
  simpl in *. lia.
Qed.

Lemma mean_ge (l : list Z) (t : Q) :
  l ≠ [] → (∀ x, x ∈ l → (t <= inject_Z x)%Q) →
  ∃ m, Np.mean l = Np.Real m ∧ (t <= m)%Q.
Proof.
  intros Hne Hl. destruct l as [|x0 l0] eqn:Heq; [done|]. rewrite <-Heq in *.
  exists (Qmake (foldr Z.add 0 l) (Pos.of_nat (length l))).
  split; [by rewrite Heq|].
  unfold Qle. simpl.
  assert (Z.pos (Pos.of_nat (length l)) = Z.of_nat (length l)) as ->.
  { rewrite Heq. simpl. lia. }
  apply sum_scaled_le. intros x Hx. specialize (Hl x Hx).
  unfold Qle, inject_Z in Hl. simpl in Hl. lia.
Qed.

Lemma mean_lt (l : list Z) (t : Q) :
  l ≠ [] → (∀ x, x ∈ l → (inject_Z x < t)%Q) →
  ∃ m, Np.mean l = Np.Real m ∧ (m < t)%Q.
Proof.
  intros Hne Hl. destruct l as [|x0 l0] eqn:Heq; [done|]. rewrite <-Heq in *.
  exists (Qmake (foldr Z.add 0 l) (Pos.of_nat (length l))).
  split; [by rewrite Heq|].
  unfold Qlt. simpl.
  assert (Z.pos (Pos.of_nat (length l)) = Z.of_nat (length l)) as ->.
  { rewrite Heq. simpl. lia. }
  apply sum_scaled_lt; [by rewrite Heq|]. intros x Hx. specialize (Hl x Hx).
  unfold Qlt, inject_Z in Hl. simpl in Hl. lia.
Qed.

(** *** Edge cases of the expansion *)

(** With [num_nodes] at most 1, zero and negative values included, the loop
    body never runs: the Sample Set is the seed alone and the Sampled
    Subgraph has this one node. *)
Theorem seed_only_sample edge_list num_nodes g :
  num_nodes ≤ 1 →
  returns_with spring_layout edge_list num_nodes g (λ r,
    visited r = {[start_node r]} ∧ Nx.nodes (G_sub r) = [start_node r]).
Proof.
  intros Hn. apply returns_with_sampled. intros r Hr.
  pose proof (s_expanding _ _ _ _ Hr) as [Hs _ _ _ Hb _].
  assert (visited r = {[start_node r]}) as Hv.
  { assert (size (visited r) = 1%nat) as Hsz.
    { assert (size (visited r) ≠ 0%nat); [|lia].
      intros H0%size_empty_inv. set_solver. }
    apply set_eq. intros x. rewrite elem_of_singleton. split.
    - intros Hx. by apply (size_singleton_inv (visited r)).
    - by intros ->. }
  split; [done|].
  apply Permutation_singleton_r. rewrite (nodes_sub_Permutation _ _ _ _ Hr).
  by rewrite Hv, elements_singleton.
Qed.

(** The seed is always in the Sample Set, and every member of the Sample
    Set is a node of the full graph joined to the seed by a path of edges
    of the full graph. *)
Theorem sample_around_seed edge_list num_nodes g :
  returns_with spring_layout edge_list num_nodes g (λ r,
    start_node r ∈ visited r ∧
    ∀ v, v ∈ visited r →
      v ∈ Nx.nodes (G_full r) ∧
      rtc (Nx.has_edge (G_full r)) (start_node r) v).
Proof.
  apply returns_with_sampled. intros r Hr. split.
  - apply (exp_start _ _ _ _ _ (s_expanding _ _ _ _ Hr)).
  - intros v Hv. split; [by eapply sampled_visited_nodes|].
    by eapply sampled_reachable.
Qed.

(** When the connected component of the seed has fewer than [num_nodes]
    nodes, the Sample Set is that whole component, whatever the generator
    draws in the shuffles. *)
Theorem sample_whole_component edge_list num_nodes g :
  returns_with spring_layout edge_list num_nodes g (λ r,
    ∀ comp : gset node,
      component (G_full r) (start_node r) comp →
      Z.of_nat (size comp) < num_nodes →
      visited r = comp).
Proof.
  apply returns_with_sampled. intros r Hr comp Hcomp Hlt.
  eapply component_unique; [|done].
  apply (expanding_component _ num_nodes); [apply Hr|].
  assert (visited r ⊆ comp) as Hsub.
  { intros v Hv. apply Hcomp. by eapply sampled_reachable. }
  pose proof (subseteq_size _ _ Hsub). lia.
Qed.

(** In a sample of two nodes or more no node is isolated: every node of the
    Sampled Subgraph has a neighbour in it. *)
Theorem no_isolated_node edge_list num_nodes g :
  returns_with spring_layout edge_list num_nodes g (λ r,
    (2 ≤ size (visited r))%nat →
    ∀ n, n ∈ visited r →
      (1 ≤ Nx.degree (G_sub r) n)%nat ∧
      ∃ m, m ∈ visited r ∧ Nx.has_edge (G_sub r) n m).
Proof.
  apply returns_with_sampled. intros r Hr Hsz n Hn.
  assert (∃ m, m ∈ visited r ∧ m ≠ n) as (m & Hm & Hne).
  { destruct (size_pos_elem_of (visited r ∖ {[n]})) as [m Hm].
    - rewrite size_difference by set_solver. rewrite size_singleton. lia.
    - exists m. set_solver. }
  pose proof (sampled_connected _ _ r n m Hr Hn Hm) as Hpath.
  apply rtc_inv in Hpath as [->|(y & Hny & _)]; [done|].
  assert (Nx.has_edge (G_sub r) n y) as Hedge
    by by apply (sampled_has_edge_sub _ _ _ _ Hr).
  split; [|exists y; split; [apply Hny|done]].
  unfold Nx.degree, Nx.degree_of. unfold Nx.has_edge in Hedge.
  destruct (Nx.adj_list (G_sub r) n); [by apply elem_of_nil in Hedge|].
  simpl. lia.
Qed.

(** *** The drawing and the summary *)

(** The colour and size lists run along the nodes of the Sampled Subgraph,
    a node is red exactly when it is in the high-connectivity group, and
    every red node is drawn strictly larger than every blue one. *)
Theorem popular_drawn_larger edge_list num_nodes g :
  returns_with spring_layout edge_list num_nodes g (λ r,
    length (node_colors r) = number_of_nodes (G_sub r) ∧
    length (node_sizes r) = number_of_nodes (G_sub r) ∧
    (∀ i n, Nx.nodes (G_sub r) !! i = Some n →
       (n ∈ popular_pages r → node_colors r !! i = Some red) ∧
       (n ∈ regular_pages r → node_colors r !! i = Some lightblue)) ∧
    ∀ i j si sj,
      node_colors r !! i = Some red →
      node_colors r !! j = Some lightblue →
      node_sizes r !! i = Some si → node_sizes r !! j = Some sj →
      sj < si).
Proof.
  apply returns_with_drawn. intros r Hr [Hc Hz _].
  destruct (sampled_threshold_Real _ _ _ _ Hr) as [t Ht].
  assert (∀ i c z,
    node_colors r !! i = Some c → node_sizes r !! i = Some z →
    ∃ n, Nx.nodes (G_sub r) !! i = Some n ∧
         (c, z) = style_of (sub_degrees r) (popular_pages r) n) as Hstyle.
  { intros i c z. rewrite Hc, Hz, !list_lookup_fmap.
    destruct (Nx.nodes (G_sub r) !! i) as [n|]; [|done]. simpl.
    intros [= <-] [= <-]. exists n. split; [done|].
    by destruct (style_of _ _ n). }
  split_and!.
  - by rewrite Hc, !length_fmap.
  - by rewrite Hz, !length_fmap.
  - intros i n Hi. rewrite Hc, !list_lookup_fmap, Hi. simpl.
    unfold style_of. split.
    + intros Hp. by rewrite decide_True.
    + intros Hq. rewrite decide_False; [done|]. intros Hp.
      apply (sampled_popular _ _ _ _ Hr) in Hp as [_ Hp].
      apply (sampled_regular _ _ _ _ Hr) in Hq as [_ Hq].
      rewrite Ht, ge_lt_Real in Hp. rewrite Ht in Hq. by rewrite Hq in Hp.
  - intros i j si sj Hci Hcj Hsi Hsj.
    destruct (Hstyle i red si Hci Hsi) as (n & Hn & Hsn).
    destruct (Hstyle j lightblue sj Hcj Hsj) as (m & Hm & Hsm).
    unfold style_of in Hsn, Hsm.
    destruct (decide (n ∈ popular_pages r)) as [Hp|]; [|done].
    destruct (decide (m ∈ popular_pages r)) as [|Hq]; [done|].
    injection Hsn as ->. injection Hsm as ->.
    rewrite !(sampled_getitem _ _ _ _ Hr).
    apply (sampled_popular _ _ _ _ Hr) in Hp as [_ Hp].
    assert (Np.ge (Z.of_nat (Nx.degree (G_sub r) m)) (degree_threshold r)
            = false) as Hm'.
    { apply not_true_is_false. intros Hge. apply Hq.
      apply (sampled_popular _ _ _ _ Hr). split; [|done].
      by eapply list_elem_of_lookup_2. }
    rewrite Ht in Hp, Hm'. apply ge_Real in Hp.
    rewrite ge_lt_Real in Hm'. apply negb_false_iff, lt_Real in Hm'.
    pose proof (Qlt_le_trans _ _ _ Hm' Hp) as Hlt.
    unfold Qlt, inject_Z in Hlt. simpl in Hlt. lia.
Qed.

(** The two counts of the legend add up to the node count of the title,
    which is the size of the Sample Set. *)
Theorem legend_counts edge_list num_nodes g :
  returns_with spring_layout edge_list num_nodes g (λ r,
    (length (popular_pages r) + length (regular_pages r))%nat =
      number_of_nodes (G_sub r) ∧
    number_of_nodes (G_sub r) = size (visited r)).
Proof.
  apply returns_with_sampled. intros r Hr.
  split; [|by eapply sampled_number_of_nodes].
  destruct (sampled_threshold_Real _ _ _ _ Hr) as [t Ht].
  rewrite (s_popular _ _ _ _ Hr), (s_regular _ _ _ _ Hr), Ht.
  unfold number_of_nodes.
  rewrite <-(filter_app_complement
    (λ n, Np.ge (getitem (sub_degrees r) n) (Np.Real t) = true)
    (Nx.nodes (G_sub r))) at 3.
  rewrite length_app. f_equal. f_equal.
  apply list_filter_iff. intros n. rewrite ge_lt_Real.
  destruct (Np.lt _ _); simpl; naive_solver.
Qed.

(** The printed averages are on either side of the threshold: the mean
    degree of the high-connectivity group is at least the threshold, and
    the mean degree of a non-empty regular group is below it, hence below
    the mean of the high-connectivity group. *)
Theorem means_around_threshold edge_list num_nodes g :
  returns_with spring_layout edge_list num_nodes g (λ r,
    ∃ t mp, degree_threshold r = Np.Real t ∧
      popular_mean r = Np.Real mp ∧ (t <= mp)%Q ∧
      (regular_pages r ≠ [] →
       ∃ mr, regular_mean r = Np.Real mr ∧ (mr < t)%Q ∧ (mr < mp)%Q)).
Proof.
  apply returns_with_sampled. intros r Hr.
  destruct (sampled_threshold_Real _ _ _ _ Hr) as [t Ht].
  destruct (mean_ge (getitem (sub_degrees r) <$> popular_pages r) t)
    as (mp & Hmp & Hle).
  { intros Hnil%fmap_nil_inv.
    destruct (list_argmax (Nx.degree (G_sub r)) (Nx.nodes (G_sub r)))
      as (n & Hn & Hk); [by eapply sampled_nodes_sub_nonempty|].
    assert (n ∈ popular_pages r) as Hp; [|rewrite Hnil in Hp;
                                           by apply elem_of_nil in Hp].
    apply (sampled_popular _ _ _ _ Hr). split; [done|].
    rewrite (s_threshold _ _ _ _ Hr). apply percentile_le_max.
    - by eapply sampled_values_nonempty.
    - lia.
    - rewrite (sampled_values _ _ _ _ Hr).
      intros y (k & -> & Hin)%list_elem_of_fmap. specialize (Hk k Hin). lia. }
  { intros x (n & -> & Hn)%list_elem_of_fmap.
    rewrite (s_popular _ _ _ _ Hr) in Hn.
    apply list_elem_of_filter in Hn as [Hn _]. rewrite Ht in Hn.
    by apply ge_Real. }
  exists t, mp. split_and!; [done|by rewrite (s_popular_mean _ _ _ _ Hr)|done|].
  intros Hne.
  destruct (mean_lt (getitem (sub_degrees r) <$> regular_pages r) t)
    as (mr & Hmr & Hlt).
  { by intros Hnil%fmap_nil_inv. }
  { intros x (n & -> & Hn)%list_elem_of_fmap.
    rewrite (s_regular _ _ _ _ Hr) in Hn.
    apply list_elem_of_filter in Hn as [Hn _]. rewrite Ht in Hn.
    by apply lt_Real. }
  exists mr. split_and!; [by rewrite (s_regular_mean _ _ _ _ Hr)|done|].
  by eapply Qlt_le_trans.
Qed.

(** The printed maximum is the subgraph degree of some sampled node, no
    sampled node has a larger one, it is at least the threshold, and it is
    at most the size of the Sample Set plus one (a self-loop counts twice). *)
Theorem max_degree_attained edge_list num_nodes g :
  returns_with spring_layout edge_list num_nodes g (λ r,
    (∃ n, n ∈ visited r ∧ max_degree r = Z.of_nat (Nx.degree (G_sub r) n)) ∧
    (∀ n, n ∈ visited r → Z.of_nat (Nx.degree (G_sub r) n) ≤ max_degree r) ∧
    Np.ge (max_degree r) (degree_threshold r) = true ∧
    max_degree r ≤ Z.of_nat (size (visited r)) + 1).
Proof.
  apply returns_with_drawn. intros r Hr [_ _ Hmax].
  apply py_max_spec in Hmax as [Hin Hle].
  rewrite (sampled_values _ _ _ _ Hr) in Hin, Hle.
  apply list_elem_of_fmap in Hin as (n & Hmx & Hn).
  assert (∀ k, k ∈ visited r →
            Z.of_nat (Nx.degree (G_sub r) k) ≤ max_degree r) as Hall.
  { intros k Hk. apply Hle. apply list_elem_of_fmap. exists k.
    split; [done|]. by eapply sampled_nodes_sub. }
  split_and!; [|done| |].
  - exists n. split; [by eapply sampled_nodes_sub|done].
  - rewrite (s_threshold _ _ _ _ Hr). apply percentile_le_max.
    + by eapply sampled_values_nonempty.
    + lia.
    + rewrite (sampled_values _ _ _ _ Hr). apply Hle.
  - rewrite Hmx.
    apply (sampled_nodes_sub _ _ _ _ Hr) in Hn.
    rewrite (sampled_degree_sub _ _ _ _ Hr n Hn).
    unfold induced_degree, Nx.degree_of.
    set (l := filter (λ v, v ∈ visited r) (Nx.adj_list (G_full r) n)).
    assert (length l ≤ size (visited r))%nat; [|case_decide; lia].
    rewrite <-(size_list_to_set (C:=gset node) l).
    + apply subseteq_size. intros x Hx%elem_of_list_to_set.
      by apply list_elem_of_filter in Hx as [Hx _].
    + apply NoDup_filter, NoDup_adj_list. by eapply sampled_wf_full.
Qed.

End more_facts.


(** ** The full graph, its degrees and its edge count *)

Section graph_more_facts.
Import Nx.
Implicit Types (G : Graph) (u v w a b : node) (d : list node).

Lemma degree_sum_with G :
  degree_sum G = sum_list_with (λ p : node * list node, degree_of p.1 p.2) G.
Proof.
  unfold degree_sum, degrees. induction G as [|[n l] G IH]; [done|].
  rewrite !fmap_cons. simpl. by rewrite IH.
Qed.

Lemma set_adj_not_node G u v : u ∉ nodes G → set_adj G u v = G.
Proof.
  unfold nodes, set_adj. induction G as [|[n l] G IH]; [done|].
  rewrite !fmap_cons. simpl. intros Hu.
  rewrite decide_False by (intros ->; apply Hu; by left).
  f_equal. apply IH. intros Hin. apply Hu. by right.
Qed.

Lemma set_adj_cons G n l u v :
  set_adj ((n, l) :: G) u v =
    (if decide (n = u) then (n, dict_set l v) else (n, l)) :: set_adj G u v.
Proof. done. Qed.

Lemma degree_sum_set_adj G u v d :
  NoDup (nodes G) → adj G u = Some d →
  (degree_sum (set_adj G u v) + degree_of u d =
   degree_sum G + degree_of u (dict_set d v))%nat.
Proof.
  rewrite !degree_sum_with. unfold nodes.
  induction G as [|[n l] G IH]; [done|].
  rewrite fmap_cons. simpl fst. intros [Hn HG]%NoDup_cons. simpl adj.
  rewrite set_adj_cons. destruct (decide (n = u)) as [->|Hne].
  - intros [= ->]. rewrite (set_adj_not_node _ u v Hn). simpl. lia.
  - intros Hd. specialize (IH HG Hd). simpl. lia.
Qed.

Lemma degree_of_dict_set u d v :
  degree_of u (dict_set d v) =
    if decide (v ∈ d) then degree_of u d
    else (degree_of u d + (if decide (u = v) then 2 else 1))%nat.
Proof.
  unfold dict_set, degree_of. destruct (decide (v ∈ d)) as [Hv|Hv]; [done|].
  rewrite length_app. simpl.
  repeat case_decide; subst; try lia; exfalso; set_solver.
Qed.

Lemma degree_sum_add_node G u : degree_sum (add_node G u) = degree_sum G.
Proof.
  unfold add_node. destruct (decide (u ∈ nodes G)); [done|].
  rewrite !degree_sum_with, sum_list_with_app. simpl.
  unfold degree_of. simpl. lia.
Qed.

Lemma has_edge_add_node G u a b :
  has_edge (add_node G u) a b ↔ has_edge G a b.
Proof.
  unfold has_edge, adj_list. rewrite adj_add_node.
  destruct (adj G a); [done|]. by destruct (decide (u = a)).
Qed.

(** Adding an edge that is not there yet adds two to the sum of the
    degrees, also for a self-loop; adding one that is there changes
    nothing. *)
Lemma degree_sum_add_edge G a b :
  wf G →
  degree_sum (add_edge G a b) =
    (degree_sum G + (if decide (has_edge G a b) then 0 else 2))%nat.
Proof.
  intros HG. unfold add_edge.
  set (G1 := add_node (add_node G a) b).
  assert (wf G1) as HG1 by (by do 2 apply wf_add_node).
  assert (degree_sum G1 = degree_sum G) as Hsum1
    by (unfold G1; by rewrite !degree_sum_add_node).
  assert (∀ x y, has_edge G1 x y ↔ has_edge G x y) as Hedge1
    by (intros x y; unfold G1; by rewrite !has_edge_add_node).
  assert (a ∈ nodes G1 ∧ b ∈ nodes G1) as [Ha Hb].
  { unfold G1. rewrite !nodes_add_node. auto. }
  apply adj_is_Some in Ha as [da Hda]. apply adj_is_Some in Hb as [db Hdb].
  pose proof (degree_sum_set_adj G1 a b da (wf_nodes _ HG1) Hda) as H1.
  set (G2 := set_adj G1 a b) in *.
  assert (adj G2 b = Some (if decide (b = a) then dict_set da b else db))
    as Hdb2.
  { unfold G2. rewrite adj_set_adj. destruct (decide (b = a)) as [->|];
      [by rewrite Hda|done]. }
  assert (NoDup (nodes G2)) as HG2
    by (unfold G2; rewrite nodes_set_adj; apply HG1).
  pose proof (degree_sum_set_adj G2 b a _ HG2 Hdb2) as H2.
  rewrite !degree_of_dict_set in H1, H2.
  assert (has_edge G a b ↔ b ∈ da) as Hab.
  { rewrite <-Hedge1. unfold has_edge, adj_list. by rewrite Hda. }
  assert (has_edge G b a ↔ a ∈ db) as Hba.
  { rewrite <-Hedge1. unfold has_edge, adj_list. by rewrite Hdb. }
  assert (has_edge G a b ↔ has_edge G b a) as Hsym
    by (split; apply wf_sym; done).
  assert (∀ x, x ∈ dict_set da b ↔ x ∈ da ∨ x = b) as Hds
    by (intros x; apply elem_of_dict_set).
  clearbody G1 G2. clear Hdb2 Hda Hdb HG2 Hedge1.
  destruct (decide (has_edge G a b)) as [He|He];
    repeat (case_decide; subst); try lia; exfalso; naive_solver.
Qed.

Lemma elem_of_edge_set G (p : node * node) :
  NoDup (nodes G) →
  p ∈ edge_set G ↔ ∃ u v, has_edge G u v ∧ p = undirected (u, v).
Proof.
  intros HG. unfold edge_set.
  rewrite elem_of_list_to_set, list_elem_of_fmap. split.
  - intros ([u v] & -> & Huv). exists u, v. split; [|done].
    by apply elem_of_adj_pairs.
  - intros (u & v & Huv & ->). exists (u, v). split; [done|].
    by apply elem_of_adj_pairs.
Qed.

Lemma undirected_comm u v : undirected (u, v) = undirected (v, u).
Proof. unfold undirected. simpl. f_equal; lia. Qed.

Lemma undirected_inj u v a b :
  undirected (u, v) = undirected (a, b) → (u = a ∧ v = b) ∨ (u = b ∧ v = a).
Proof. unfold undirected. simpl. intros [= H1 H2]. lia. Qed.

Lemma edge_set_add_edge G a b :
  wf G → edge_set (add_edge G a b) = {[undirected (a, b)]} ∪ edge_set G.
Proof.
  intros HG. apply set_eq. intros p.
  rewrite elem_of_union, elem_of_singleton.
  rewrite !elem_of_edge_set by (apply wf_nodes; by try apply wf_add_edge).
  setoid_rewrite has_edge_add_edge. split.
  - intros (u & v & [Huv|[[-> ->]|[-> ->]]] & ->); [right; by eauto|by left|].
    left. apply undirected_comm.
  - intros [->|(u & v & Huv & ->)]; [exists a, b; by auto|by eauto].
Qed.

Lemma undirected_elem_of_edge_set G a b :
  wf G → undirected (a, b) ∈ edge_set G ↔ has_edge G a b.
Proof.
  intros HG. rewrite elem_of_edge_set by apply HG. split.
  - intros (u & v & Huv & [[-> ->]|[-> ->]]%undirected_inj); [done|].
    by apply wf_sym.
  - by eauto.
Qed.

Lemma handshake_add_edge G a b : handshake G → handshake (add_edge G a b).
Proof.
  intros [HG Hsum]. split; [by apply wf_add_edge|].
  rewrite degree_sum_add_edge, edge_set_add_edge, Hsum by done.
  destruct (decide (has_edge G a b)) as [He|He].
  - apply (undirected_elem_of_edge_set G a b HG) in He.
    assert ({[undirected (a, b)]} ∪ edge_set G = edge_set G) as ->
      by (by apply subseteq_union_1_L, singleton_subseteq_l).
    lia.
  - rewrite size_union, size_singleton; [lia|].
    rewrite <-(undirected_elem_of_edge_set G a b HG) in He.
    by apply disjoint_singleton_l.
Qed.

Lemma handshake_add_edges_from G es :
  handshake G → handshake (add_edges_from G es).
Proof.
  unfold add_edges_from. revert G.
  induction es as [|e es IH]; intros G HG; simpl; [done|].
  by apply IH, handshake_add_edge.
Qed.

Lemma handshake_add_nodes_from ns : handshake (add_nodes_from empty ns).
Proof.
  assert (∀ G, handshake G → handshake (add_nodes_from G ns)) as H.
  { unfold add_nodes_from. induction ns as [|n ns IH]; intros G HG; [done|].
    simpl. apply IH. destruct HG as [HG Hsum].
    split; [by apply wf_add_node|]. rewrite degree_sum_add_node, Hsum.
    f_equal. f_equal. apply set_eq. intros p.
    rewrite !elem_of_edge_set by (apply wf_nodes; by try apply wf_add_node).
    by setoid_rewrite has_edge_add_node. }
  apply H. split; [apply wf_empty|done].
Qed.

Lemma handshake_full edge_list : handshake (add_edges_from empty edge_list).
Proof. apply handshake_add_edges_from. split; [apply wf_empty|done]. Qed.

Lemma handshake_copy G : handshake (copy G).
Proof. apply handshake_add_edges_from, handshake_add_nodes_from. Qed.

Lemma handshake_number_of_edges G :
  handshake G →
  number_of_edges G = size (edge_set G) ∧
  degree_sum G = (2 * number_of_edges G)%nat.
Proof.
  intros [_ Hsum]. unfold number_of_edges. rewrite Hsum.
  rewrite Nat.mul_comm, Nat.div_mul by done. split; lia.
Qed.

(** The graph built from an edge list is the undirected simple graph of
    the list: two nodes are adjacent exactly when the list pairs them, in
    either direction and however often; the nodes are the endpoints; the
    degree of a node is the number of nodes adjacent to it, plus one when it
    is adjacent to itself; and the edge count is the number of distinct
    undirected edges. *)
Theorem full_graph_of_edge_list (edge_list : list (node * node)) :
  let G := add_edges_from empty edge_list in
  (∀ u v, has_edge G u v ↔ (u, v) ∈ edge_list ∨ (v, u) ∈ edge_list) ∧
  (∀ n, n ∈ nodes G ↔ ∃ e, e ∈ edge_list ∧ (n = e.1 ∨ n = e.2)) ∧
  NoDup (nodes G) ∧
  (∀ n, degree G n =
          (length (filter (λ v, has_edge G n v) (nodes G))
           + (if decide (has_edge G n n) then 1 else 0))%nat) ∧
  number_of_edges G = size (edge_set G) ∧
  (∀ p, p ∈ edge_set G ↔ ∃ e, e ∈ edge_list ∧ p = undirected e).
Proof.
  intros G. assert (wf G) as HG by apply wf_add_edges_from, wf_empty.
  assert (∀ u v, has_edge G u v ↔ (u, v) ∈ edge_list ∨ (v, u) ∈ edge_list)
    as Hedge.
  { intros u v. unfold G. rewrite has_edge_add_edges_from.
    unfold has_edge, adj_list. simpl. rewrite elem_of_nil. naive_solver. }
  split_and!; [done| |apply HG| | |].
  - intros n. unfold G. rewrite nodes_add_edges_from.
    unfold nodes. simpl. rewrite elem_of_nil. naive_solver.
  - intros n. unfold degree, degree_of.
    assert (length (adj_list G n) =
            length (filter (λ v, has_edge G n v) (nodes G))) as ->.
    { apply Permutation_length, NoDup_Permutation.
      - by apply NoDup_adj_list.
      - apply NoDup_filter, HG.
      - intros v. rewrite list_elem_of_filter. split.
        + intros Hv. split; [done|]. by eapply wf_closed.
        + by intros [Hv _]. }
    f_equal.
  - apply handshake_number_of_edges, handshake_full.
  - intros p. rewrite elem_of_edge_set by apply HG. split.
    + intros (u & v & [Huv|Hvu]%Hedge & ->).
      * by exists (u, v).
      * exists (v, u). split; [done|]. apply undirected_comm.
    + intros ([u v] & He & ->). exists u, v. split; [|done].
      apply Hedge. by left.
Qed.

End graph_more_facts.


(** ** Invariants of the expansion *)

Section expand_invariant.
Variables (G : Nx.Graph) (num_nodes : Z) (start : node).
Hypothesis HG : Nx.wf G.

(** A property [J] of the visited set and the pending nodes that the body
    of the [for] loop keeps when it visits a node, and that still holds of
    the queue once its head has been dealt with. *)
Variable J : gset node → list node → Prop.
Hypothesis Hvisit : ∀ S q h x,
  expanding G num_nodes start S (h :: q) → J S (h :: q) →
  Nx.has_edge G h x → x ∉ S → Z.of_nat (size S) < num_nodes →
  J ({[x]} ∪ S) (h :: q ++ [x]).
Hypothesis Hpop : ∀ S h q,
  expanding G num_nodes start S q → J S (h :: q) → J S q.

Lemma visit_all_invariant nbrs S queue current :
  expanding G num_nodes start S (current :: queue) →
  J S (current :: queue) →
  (∀ x, x ∈ nbrs → Nx.has_edge G current x) →
  let st := foldl (visit num_nodes) (S, queue) nbrs in
  J (fst st) (current :: snd st).
Proof.
  revert S queue. induction nbrs as [|x nbrs IH]; intros S queue HS HJ Hnb;
    [done|]. simpl.
  assert (Nx.has_edge G current x) as Hx by (apply Hnb; by left).
  destruct (expanding_visit G num_nodes start HG S queue current x HS Hx)
    as (H1 & _).
  assert (J (fst (visit num_nodes (S, queue) x))
            (current :: snd (visit num_nodes (S, queue) x))) as HJ1.
  { unfold visit. simpl.
    destruct (decide ((x ∉ S) ∧ Z.of_nat (size S) < num_nodes))
      as [[HxS Hlt]|]; simpl; [|done].
    by apply Hvisit. }
  destruct (visit num_nodes (S, queue) x) as [S1 q1]. simpl in *.
  apply IH; [done|done|]. intros y Hy. apply Hnb. by right.
Qed.

(** One round of the [while] loop keeps what holds of the visited set. *)
Lemma expanding_round nbrs S queue current :
  expanding G num_nodes start S (current :: queue) →
  (∀ x, x ∈ nbrs ↔ Nx.has_edge G current x) →
  let st := foldl (visit num_nodes) (S, queue) nbrs in
  expanding G num_nodes start (fst st) (snd st).
Proof.
  intros HS Hnb.
  destruct (expanding_visit_all G num_nodes start HG nbrs S queue current HS)
    as (H1 & H2 & H3 & H4).
  { intros x Hx. by apply Hnb. }
  simpl. destruct (foldl (visit num_nodes) (S, queue) nbrs) as [S1 q1].
  simpl in *. destruct H1 as [Hs Hp Hn Hc Hb Hcl]. split; auto.
  - intros u Hu. apply Hp. by right.
  - intros u v Hlt Hu Hnq Huv.
    destruct (decide (u = current)) as [->|Hne].
    + apply H4; [done|]. by apply Hnb.
    + apply (Hcl u v); [done|done| |done].
      intros [->|Hin]%elem_of_cons; done.
Qed.

Lemma expand_invariant fuel S queue g S' g' :
  expanding G num_nodes start S queue → J S queue →
  expand fuel G num_nodes S queue g = Ok (S', g') →
  ∃ pending, J S' pending.
Proof.
  revert S queue g.
  induction fuel as [|fuel IH]; intros S queue g HS HJ;
    (destruct queue as [|current queue]; simpl;
     [intros [= <- <-]; by exists []|]);
    (destruct (decide (Z.of_nat (size S) < num_nodes)) as [Hlt|Hge];
     [|intros [= <- <-]; by exists (current :: queue)]).
  - done.
  - unfold Nx.neighbors.
    destruct (Nx.adj G current) as [nbrs|] eqn:Hadj; [|done]. simpl.
    destruct (Rand.shuffle nbrs g) as [nbrs' g1] eqn:Hsh.
    assert (nbrs' ≡ₚ nbrs) as Hperm.
    { pose proof (shuffle_Permutation nbrs g) as Hp. by rewrite Hsh in Hp. }
    assert (∀ x, x ∈ nbrs' ↔ Nx.has_edge G current x) as Hnb.
    { intros x. unfold Nx.has_edge, Nx.adj_list. rewrite Hadj. simpl.
      by rewrite Hperm. }
    pose proof (visit_all_invariant nbrs' S queue current HS HJ
                  (λ x, proj1 (Hnb x))) as HJ1.
    pose proof (expanding_round nbrs' S queue current HS Hnb) as HS1.
    destruct (foldl (visit num_nodes) (S, queue) nbrs') as [S1 q1].
    simpl in *. apply IH; [done|]. by eapply Hpop.
Qed.

End expand_invariant.

(** ** The edge count of the title and the order of the sample *)

Section sample_more_facts.
Context {Layout : Type} (spring_layout : Nx.Graph → Z → Z → Z → Layout).
Implicit Types (edge_list : list (node * node)) (g : Rand.state).
Implicit Types (r : viz Layout) (G : Nx.Graph) (S : gset node).

Lemma network_viz_expand edge_list num_nodes g r g' :
  network_viz spring_layout edge_list num_nodes g = Ok (r, g') →
  ∃ g1, expand (Z.to_nat num_nodes) (G_full r) num_nodes
          {[start_node r]} [start_node r] g1 = Ok (visited r, g').
Proof.
  unfold network_viz, mbind, outcome_bind.
  destruct (Rand.choice _ g) as [[s g1]| |]; [|done|done].
  destruct (expand _ _ num_nodes {[s]} [s] g1) as [[S g2]| |] eqn:Hexp;
    [|done|done].
  destruct (py_max _) as [mx| |]; [|done|done].
  intros [= <- <-]. simpl. by exists g1.
Qed.

Lemma returns_with_expand edge_list num_nodes g (P : viz Layout → Prop) :
  (∀ r g1 g2,
     sampled spring_layout edge_list num_nodes r →
     expand (Z.to_nat num_nodes) (G_full r) num_nodes
       {[start_node r]} [start_node r] g1 = Ok (visited r, g2) →
     P r) →
  returns_with spring_layout edge_list num_nodes g P.
Proof.
  intros HP.
  pose proof (returns_with_sampled spring_layout edge_list num_nodes g
    (λ r, sampled spring_layout edge_list num_nodes r) (λ r Hr, Hr)) as H.
  unfold returns_with in *.
  destruct (network_viz spring_layout edge_list num_nodes g)
    as [[r g']| |] eqn:Hrun; [|done|done].
  destruct (network_viz_expand _ _ _ _ _ Hrun) as [g1 Hexp]. by eapply HP.
Qed.

Lemma undirected_ends S u v :
  (undirected (u, v)).1 ∈ S ∧ (undirected (u, v)).2 ∈ S ↔ u ∈ S ∧ v ∈ S.
Proof.
  unfold undirected. simpl. destruct (Z.le_gt_cases u v).
  - by rewrite Z.min_l, Z.max_r by lia.
  - rewrite Z.min_r, Z.max_l by lia. naive_solver.
Qed.

Lemma elem_of_edges_within G S (p : node * node) :
  Nx.wf G →
  p ∈ edges_within G S ↔
  ∃ u v, edge_within G S u v ∧ p = undirected (u, v).
Proof.
  intros HG. unfold edges_within, edge_within.
  rewrite elem_of_filter, elem_of_edge_set by apply HG. split.
  - intros (Hp & u & v & Huv & ->).
    apply (proj1 (undirected_ends S u v)) in Hp.
    exists u, v. by destruct Hp.
  - intros (u & v & (Huv & Hu & Hv) & ->). split; [|by eauto].
    by apply undirected_ends.
Qed.

Lemma edge_set_sub edge_list num_nodes r :
  sampled spring_layout edge_list num_nodes r →
  edge_set (G_sub r) = edges_within (G_full r) (visited r).
Proof.
  intros Hr. apply set_eq. intros p.
  rewrite elem_of_edge_set by (apply Nx.wf_nodes; by eapply sampled_wf_sub).
  rewrite elem_of_edges_within by by eapply sampled_wf_full.
  by setoid_rewrite (sampled_has_edge_sub _ _ _ _ Hr).
Qed.

(** Every node visited after the seed brings an edge of its own. *)
Lemma edges_within_visit G S h x :
  Nx.wf G → h ∈ S → x ∉ S → Nx.has_edge G h x →
  (size (edges_within G S) < size (edges_within G ({[x]} ∪ S)))%nat.
Proof.
  intros HG Hh Hx Hhx.
  assert ({[undirected (h, x)]} ∪ edges_within G S
            ⊆ edges_within G ({[x]} ∪ S)) as Hsub.
  { intros p [->%elem_of_singleton|Hp]%elem_of_union.
    - apply elem_of_edges_within; [done|]. exists h, x.
      unfold edge_within. set_solver.
    - apply elem_of_edges_within in Hp as (u & v & (Huv & Hu & Hv) & ->);
        [|done].
      apply elem_of_edges_within; [done|]. exists u, v.
      unfold edge_within. set_solver. }
  apply subseteq_size in Hsub. rewrite size_union, size_singleton in Hsub;
    [lia|].
  apply disjoint_singleton_l.
  intros (u & v & (_ & Hu & Hv) & Heq)%elem_of_edges_within; [|done].
  apply undirected_inj in Heq as [[-> ->]|[-> ->]]; done.
Qed.

(** The title: the connection count is the number of distinct edges of the
    Sampled Subgraph, half the sum of its degrees with nothing rounded
    away; these edges are the edges of the full graph with both ends in the
    Sample Set; the count is at most the edge count of the full graph, and
    a sample of [n] nodes shows at least [n - 1] connections. *)
Theorem title_counts edge_list num_nodes g :
  returns_with spring_layout edge_list num_nodes g (λ r,
    number_of_edges (G_sub r) = size (edge_set (G_sub r)) ∧
    degree_sum (G_sub r) = (2 * number_of_edges (G_sub r))%nat ∧
    edge_set (G_sub r) = edges_within (G_full r) (visited r) ∧
    (number_of_edges (G_sub r) ≤ number_of_edges (G_full r))%nat ∧
    (number_of_nodes (G_sub r) ≤ number_of_edges (G_sub r) + 1)%nat).
Proof.
  apply returns_with_expand. intros r g1 g2 Hr Hexp.
  pose proof (sampled_wf_full _ _ _ _ Hr) as HG.
  assert (number_of_edges (G_sub r) = size (edge_set (G_sub r)) ∧
          degree_sum (G_sub r) = (2 * number_of_edges (G_sub r))%nat)
    as [Hsub Hsum].
  { apply handshake_number_of_edges. rewrite (s_sub _ _ _ _ Hr).
    apply handshake_copy. }
  assert (number_of_edges (G_full r) = size (edge_set (G_full r))) as Hfull.
  { apply handshake_number_of_edges. rewrite (s_full _ _ _ _ Hr).
    apply handshake_full. }
  pose proof (edge_set_sub _ _ _ Hr) as Heq.
  split_and!; [done|done|done| |].
  - rewrite Hsub, Hfull, Heq. apply subseteq_size.
    unfold edges_within. intros p Hp. by apply elem_of_filter in Hp as [_ Hp].
  - rewrite Hsub, Heq, (sampled_number_of_nodes _ _ _ _ Hr).
    destruct (expand_invariant (G_full r) num_nodes (start_node r) HG
      (λ S _, (size S ≤ size (edges_within (G_full r) S) + 1)%nat))
      with (fuel := Z.to_nat num_nodes) (S := ({[start_node r]} : gset node))
           (queue := [start_node r]) (g := g1) (S' := visited r) (g' := g2)
      as [_ Hfin]; [| |apply expanding_init| |done|done].
    + intros S q h x HS HJ Hhx Hx Hlt.
      pose proof (edges_within_visit (G_full r) S h x HG
                    (exp_pending HS h ltac:(by left)) Hx Hhx).
      rewrite size_union, size_singleton by set_solver. lia.
    + done.
    + done.
    + apply (sampled_start _ _ _ _ Hr).
    + rewrite size_singleton. lia.
Qed.

(** *** Breadth first *)

Lemma bsteps_0_inv {A} (R : relation A) x y : bsteps R 0 x y → x = y.
Proof. by inversion 1. Qed.

Lemma bsteps_S_inv_r {A} (R : relation A) n x z :
  bsteps R (S n) x z → bsteps R n x z ∨ ∃ y, bsteps R n x y ∧ R y z.
Proof.
  intros (m & Hm & Hsteps)%bsteps_nsteps.
  destruct (decide (m ≤ n)%nat) as [Hle|Hgt].
  - left. apply bsteps_nsteps. by exists m.
  - assert (m = S n) as -> by lia.
    apply nsteps_inv_r in Hsteps as (y & Hy & Hyz).
    right. exists y. split; [|done]. apply bsteps_nsteps. by exists n.
Qed.

Lemma level_queue_init G start :
  nearest_first G start {[start]} ∧ level_queue G start {[start]} [start].
Proof.
  split.
  - intros k v w ->%elem_of_singleton Hfar. destruct Hfar. apply bsteps_refl.
  - exists O, [], []. split_and!; [done|apply bsteps_refl| | | |].
    + intros x Hx. by apply elem_of_nil in Hx.
    + intros x Hx. by apply elem_of_nil in Hx.
    + intros w ->%bsteps_0_inv. set_solver.
    + intros v ->%elem_of_singleton. apply bsteps_refl.
Qed.

Lemma level_queue_visit G start S q h x :
  nearest_first G start S → level_queue G start S (h :: q) →
  Nx.has_edge G h x → x ∉ S →
  nearest_first G start ({[x]} ∪ S) ∧
  level_queue G start ({[x]} ∪ S) (h :: q ++ [x]).
Proof.
  intros Hnear (a & l1 & l2 & -> & Hh & Hl1 & Hl2 & Hin & Hout) Hhx Hx.
  assert (bsteps (Nx.has_edge G) (Datatypes.S a) start x) as Hxa
    by by eapply bsteps_r.
  split.
  - intros k v w [->%elem_of_singleton|Hv]%elem_of_union Hfar Hw.
    + apply elem_of_union_r, Hin.
      destruct (decide (k ≤ a)%nat) as [Hle|Hgt];
        [by eapply bsteps_weaken|].
      destruct Hfar. eapply bsteps_weaken; [|done]. lia.
    + apply elem_of_union_r. by eapply Hnear.
  - exists a, l1, (l2 ++ [x]). split_and!; [by rewrite app_assoc|done|done| | |].
    + intros y [Hy| ->%list_elem_of_singleton]%elem_of_app; [by apply Hl2|].
      split; [done|]. intros Hxin. by apply Hx, Hin.
    + intros w Hw. by apply elem_of_union_r, Hin.
    + intros v [->%elem_of_singleton|Hv]%elem_of_union; [done|by apply Hout].
Qed.

Lemma level_queue_pop G num_nodes start S h q :
  expanding G num_nodes start S q → Z.of_nat (size S) < num_nodes →
  level_queue G start S (h :: q) → level_queue G start S q.
Proof.
  intros HS Hlt (a & l1 & l2 & -> & Hh & Hl1 & Hl2 & Hin & Hout).
  destruct l1 as [|h1 l1]; [destruct l2 as [|h2 l2]|]; simpl.
  - done.
  - exists (Datatypes.S a), l2, []. split_and!.
    + by rewrite app_nil_r.
    + apply Hl2. by left.
    + intros x Hx. apply Hl2. by right.
    + intros x Hx. by apply elem_of_nil in Hx.
    + intros w [Hw|(p & Hp & Hpw)]%bsteps_S_inv_r; [by apply Hin|].
      apply (exp_closed _ _ _ _ _ HS p w); [done|by apply Hin| |done].
      intros Hpq. by apply Hl2 in Hpq as [_ Hpq].
    + intros v Hv. by apply bsteps_S, Hout.
  - exists a, l1, l2. split_and!; [done| | |done|done|done].
    + apply Hl1. by left.
    + intros x Hx. apply Hl1. by right.
Qed.

(** The sample is taken breadth first: when a node of the Sample Set is
    more than [k] edges away from the seed, every node of the full graph
    that is at most [k] edges away from the seed is in the Sample Set,
    whatever the shuffles draw. *)
Theorem sample_nearest_first edge_list num_nodes g :
  returns_with spring_layout edge_list num_nodes g (λ r,
    ∀ (k : nat) v w,
      v ∈ visited r →
      ¬ bsteps (Nx.has_edge (G_full r)) k (start_node r) v →
      bsteps (Nx.has_edge (G_full r)) k (start_node r) w →
      w ∈ visited r).
Proof.
  apply returns_with_expand. intros r g1 g2 Hr Hexp.
  pose proof (sampled_wf_full _ _ _ _ Hr) as HG.
  destruct (expand_invariant (G_full r) num_nodes (start_node r) HG
    (λ S pending,
       nearest_first (G_full r) (start_node r) S ∧
       (Z.of_nat (size S) < num_nodes →
        level_queue (G_full r) (start_node r) S pending)))
    with (fuel := Z.to_nat num_nodes) (S := ({[start_node r]} : gset node))
         (queue := [start_node r]) (g := g1) (S' := visited r) (g' := g2)
    as [pending [Hfin _]]; [| |apply expanding_init| |done|done].
  - intros S q h x HS [Hnear Hq] Hhx Hx Hlt.
    destruct (level_queue_visit _ _ S q h x Hnear (Hq Hlt) Hhx Hx) as [H1 H2].
    split; [done|]. by intros _.
  - intros S h q HS [Hnear Hq]. split; [done|]. intros Hlt.
    exact (level_queue_pop _ num_nodes _ S h q HS Hlt (Hq Hlt)).
  - done.
  - apply (sampled_start _ _ _ _ Hr).
  - destruct (level_queue_init (G_full r) (start_node r)) as [H1 H2].
    split; [done|]. by intros _.
Qed.

(** *** The share of the high-connectivity group *)

Lemma length_filter_fmap {A B} (f : A → B) (P : B → Prop)
    `{!∀ y, Decision (P y)} (l : list A) :
  length (filter P (f <$> l)) = length (filter (λ x, P (f x)) l).
Proof.
  induction l as [|x l IH]; [done|]. rewrite fmap_cons.
  destruct (decide (P (f x))) as [HP|HP].
  - rewrite !filter_cons_True by done. simpl. by rewrite IH.
  - by rewrite !filter_cons_False by done.
Qed.

(** The "top 30%" of the source comment is a lower bound: of a sample of
    [n] nodes at least 30 percent of [n - 1] are in the high-connectivity
    group, which may hold all of them. *)
Theorem popular_share edge_list num_nodes g :
  returns_with spring_layout edge_list num_nodes g (λ r,
    (Z.of_nat (size (visited r)) - 1) * 30
      ≤ 100 * Z.of_nat (length (popular_pages r))).
Proof.
  apply returns_with_sampled. intros r Hr.
  destruct (percentile_rank (Z.of_nat <$> (sub_degrees r).*2) 70)
    as (t & Ht & _ & Hrank); [by eapply sampled_values_nonempty|lia|].
  rewrite <-(s_threshold _ _ _ _ Hr) in Ht.
  rewrite (sampled_values _ _ _ _ Hr) in Hrank.
  rewrite length_fmap, length_filter_fmap in Hrank.
  fold (number_of_nodes (G_sub r)) in Hrank.
  rewrite (sampled_number_of_nodes _ _ _ _ Hr) in Hrank.
  rewrite (s_popular _ _ _ _ Hr), Ht.
  erewrite (list_filter_iff _ (λ n, Qle_bool t
               (inject_Z (Z.of_nat (Nx.degree (G_sub r) n))) = true));
    [lia|].
  intros n. by rewrite (sampled_getitem _ _ _ _ Hr).
Qed.

(** *** A larger bound only adds nodes *)

Lemma visit_subseteq num_nodes S q x : S ⊆ fst (visit num_nodes (S, q) x).
Proof. unfold visit. simpl. case_decide; simpl; set_solver. Qed.

Lemma foldl_visit_subseteq num_nodes nbrs S q :
  S ⊆ fst (foldl (visit num_nodes) (S, q) nbrs).
Proof.
  revert S q. induction nbrs as [|x nbrs IH]; intros S q; simpl; [done|].
  pose proof (visit_subseteq num_nodes S q x) as H1.
  destruct (visit num_nodes (S, q) x) as [S1 q1]. simpl in *.
  etrans; [exact H1|apply IH].
Qed.

Lemma expand_subseteq fuel G num_nodes S queue g S' g' :
  expand fuel G num_nodes S queue g = Ok (S', g') → S ⊆ S'.
Proof.
  revert S queue g. induction fuel as [|fuel IH]; intros S queue g;
    (destruct queue as [|current queue]; simpl; [by intros [= <- <-]|]);
    (case_decide; [|by intros [= <- <-]]); [done|].
  unfold Nx.neighbors. destruct (Nx.adj G current) as [nbrs|]; [|done]. simpl.
  destruct (Rand.shuffle nbrs g) as [nbrs' g1].
  pose proof (foldl_visit_subseteq num_nodes nbrs' S queue) as H1.
  destruct (foldl (visit num_nodes) (S, queue) nbrs') as [S1 q1]. simpl in *.
  intros H2%IH. by etrans.
Qed.

Lemma expand_full fuel G num_nodes S queue g S' g' :
  num_nodes ≤ Z.of_nat (size S) →
  expand fuel G num_nodes S queue g = Ok (S', g') → S' = S.
Proof.
  intros Hge. destruct fuel, queue as [|current queue]; simpl;
    try (by intros [= <- <-]); (case_decide; [lia|by intros [= <- <-]]).
Qed.

Lemma foldl_visit_full num_nodes nbrs S q :
  num_nodes ≤ Z.of_nat (size S) →
  foldl (visit num_nodes) (S, q) nbrs = (S, q).
Proof.
  intros Hge. induction nbrs as [|x nbrs IH]; simpl; [done|].
  unfold visit at 2. simpl. rewrite decide_False by lia. done.
Qed.

(** The inner loop under two bounds, from one state: the two runs end in
    the same state, or the run under the smaller bound has reached it and
    holds a part of what the other run holds. *)
Lemma foldl_visit_bounds n1 n2 nbrs S q :
  n1 ≤ n2 →
  let st1 := foldl (visit n1) (S, q) nbrs in
  let st2 := foldl (visit n2) (S, q) nbrs in
  st1 = st2 ∨ (n1 ≤ Z.of_nat (size (fst st1)) ∧ fst st1 ⊆ fst st2).
Proof.
  intros Hn. revert S q. induction nbrs as [|x nbrs IH]; intros S q; simpl;
    [by left|].
  destruct (decide (Z.of_nat (size S) < n1)) as [Hlt|Hge].
  - assert (visit n1 (S, q) x = visit n2 (S, q) x) as ->;
      [|destruct (visit n2 (S, q) x) as [S' q']; apply IH].
    unfold visit. simpl. destruct (decide (x ∈ S)) as [Hx|Hx].
    + rewrite !decide_False by naive_solver. done.
    + rewrite !decide_True by (split; [done|lia]). done.
  - right. unfold visit at 2 4. simpl. rewrite decide_False by lia.
    rewrite foldl_visit_full by lia. simpl. split; [lia|].
    etrans; [apply (visit_subseteq n2 S q x)|].
    destruct (visit n2 (S, q) x) as [S2 q2]. apply foldl_visit_subseteq.
Qed.

Lemma expand_bounds f1 f2 G n1 n2 S queue g S1 g1 S2 g2 :
  n1 ≤ n2 →
  expand f1 G n1 S queue g = Ok (S1, g1) →
  expand f2 G n2 S queue g = Ok (S2, g2) →
  S1 ⊆ S2.
Proof.
  intros Hn. revert f2 S queue g.
  induction f1 as [|f1 IH]; intros f2 S queue g H1 H2.
  - destruct (decide (Z.of_nat (size S) < n1)) as [Hlt|Hge].
    + destruct queue; simpl in H1; [|by rewrite decide_True in H1].
      injection H1 as <- <-. by eapply expand_subseteq.
    + apply expand_full in H1 as ->; [|lia]. by eapply expand_subseteq.
  - destruct (decide (Z.of_nat (size S) < n1)) as [Hlt|Hge]; last first.
    { apply expand_full in H1 as ->; [|lia]. by eapply expand_subseteq. }
    destruct queue as [|current queue].
    { simpl in H1. injection H1 as <- <-. by eapply expand_subseteq. }
    destruct f2 as [|f2]; simpl in H1, H2;
      rewrite decide_True in H1 by lia; rewrite decide_True in H2 by lia;
      [done|].
    unfold Nx.neighbors in *.
    destruct (Nx.adj G current) as [nbrs|]; [|done]. simpl in H1, H2.
    destruct (Rand.shuffle nbrs g) as [nbrs' g'].
    destruct (foldl_visit_bounds n1 n2 nbrs' S queue Hn) as [Heq|[Hge Hsub]].
    + rewrite Heq in H1.
      destruct (foldl (visit n2) (S, queue) nbrs') as [S' q'].
      by eapply IH.
    + destruct (foldl (visit n1) (S, queue) nbrs') as [Sa qa].
      destruct (foldl (visit n2) (S, queue) nbrs') as [Sb qb].
      simpl in *. apply expand_full in H1 as ->; [|lia].
      apply expand_subseteq in H2. by etrans.
Qed.

Lemma network_viz_steps edge_list num_nodes g r g' :
  network_viz spring_layout edge_list num_nodes g = Ok (r, g') →
  ∃ g1,
    Rand.choice (moderate_nodes
      (Nx.degrees (Nx.add_edges_from Nx.empty edge_list))) g
      = Ok (start_node r, g1) ∧
    expand (Z.to_nat num_nodes) (Nx.add_edges_from Nx.empty edge_list)
      num_nodes {[start_node r]} [start_node r] g1 = Ok (visited r, g').
Proof.
  unfold network_viz, mbind, outcome_bind.
  destruct (Rand.choice _ g) as [[s g1]| |]; [|done|done].
  destruct (expand _ _ num_nodes {[s]} [s] g1) as [[S g2]| |] eqn:Hexp;
    [|done|done].
  destruct (py_max _) as [mx| |]; [|done|done].
  intros [= <- <-]. simpl. by exists g1.
Qed.

(** From one generator state, a call with a larger [num_nodes] selects the
    same seed and its Sample Set contains the Sample Set of the call with
    the smaller one; the two calls fail alike. *)
Theorem larger_bound_larger_sample edge_list n1 n2 g :
  n1 ≤ n2 →
  match network_viz spring_layout edge_list n1 g,
        network_viz spring_layout edge_list n2 g with
  | Ok (r1, _), Ok (r2, _) =>
    start_node r1 = start_node r2 ∧ visited r1 ⊆ visited r2
  | Raise e1, Raise e2 => e1 = e2
  | _, _ => False
  end.
Proof.
  intros Hn.
  destruct (network_viz_cases spring_layout edge_list n1 g)
    as [[Hmod1 ->]|(r1 & g1 & Hrun1 & _)];
    destruct (network_viz_cases spring_layout edge_list n2 g)
      as [[Hmod2 ->]|(r2 & g2 & Hrun2 & _)]; [done| | |].
  - destruct (network_viz_steps _ _ _ _ _ Hrun2) as (h & Hch & _).
    by rewrite Hmod1 in Hch.
  - destruct (network_viz_steps _ _ _ _ _ Hrun1) as (h & Hch & _).
    by rewrite Hmod2 in Hch.
  - rewrite Hrun1, Hrun2.
    destruct (network_viz_steps _ _ _ _ _ Hrun1) as (h1 & Hch1 & Hexp1).
    destruct (network_viz_steps _ _ _ _ _ Hrun2) as (h2 & Hch2 & Hexp2).
    rewrite Hch1 in Hch2. injection Hch2 as Hs <-. rewrite <-Hs in Hexp2.
    split; [done|]. by eapply expand_bounds.
Qed.

End sample_more_facts.


(** ** The further properties at sample inputs *)

(** What the drawing shows for the sample [0; 2; 5; 14]: one red node of
    degree 3, three blue nodes of degree 1, four nodes and three edges. *)
Example drawing_of_sample :
  ∃ r g',
    network_viz no_layout (star 20 ++ [(1, 2); (2, 3); (3, 3)]) 4 g0
      = Ok (r, g') ∧
    node_colors r = [red; lightblue; lightblue; lightblue] ∧
    node_sizes r = [124; 55; 55; 55] ∧
    number_of_nodes (G_sub r) = 4%nat ∧ number_of_edges (G_sub r) = 3%nat ∧
    max_degree r = 3 ∧
    number_of_edges (G_full r) = 23%nat.
Proof. eexists _, _. split; [vm_compute; reflexivity|]. vm_compute. done. Qed.

(** A negative bound: the sample is the seed alone. *)
Example negative_bound :
  observe (network_viz no_layout (star 20) (-3) g0) =
    Ok (0, [0], [0%nat], Np.Real (Qmake 0 100), [0], [], Np.NaN).
Proof. vm_compute. reflexivity. Qed.

Lemma seed_only_sample_witness :
  0 ≤ 1 ∧
  returns_with no_layout (star 20) 0 g0 (λ r,
    visited r = {[start_node r]} ∧ Nx.nodes (G_sub r) = [start_node r]).
Proof.
  split; [lia|]. apply (seed_only_sample no_layout (star 20) 0 g0). lia.
Defined.

Lemma larger_bound_larger_sample_witness :
  3 ≤ 5 ∧
  match network_viz no_layout (star 20) 3 g0,
        network_viz no_layout (star 20) 5 g0 with
  | Ok (r1, _), Ok (r2, _) =>
    start_node r1 = start_node r2 ∧ visited r1 ⊆ visited r2
  | Raise e1, Raise e2 => e1 = e2
  | _, _ => False
  end.
Proof.
  split; [lia|].
  apply (larger_bound_larger_sample no_layout (star 20) 3 5 g0). lia.
Defined.
